(** * MFL Salary Top 30 Exporter: a shallow embedding of [export-salaries.mjs]

    The development follows the script top to bottom: helpers, the fetch
    client, the four salary extractors and the metadata extractor, the
    reconciliation merge, the ranking engine, the orchestrator and [main].

    Conventions of the embedding.
    - A JS string is a [string]: a sequence of code units below 256.
    - A JS number is an exact rational ([Qc]); [NaN] exists only as the
      result of a failed [parseFloat].  [Math.max], [>] and the sign of a
      difference are exact on binary64 values, so they are what they are on
      the rationals.  The rounding of a decimal literal to binary64 and the
      literal [Infinity] are outside the model.
    - A JS [Map] is an association list in insertion order, without
      duplicate keys when built by [Map_set] from the empty map.
    - MFL's JSON export carries every attribute as a string; a record field
      is an [option string], [None] when the attribute is missing.
    - Asynchronous code is sequential here ([await] at every call), so it
      is a state-and-exception monad over a [world]: the log of effects
      and the number of HTTP requests issued so far. *)

From Stdlib Require Import Ascii String QArith Qcanon.
From stdpp Require Import base numbers list strings sorting pretty.

Local Open Scope string_scope.
Local Open Scope Qc_scope.
#[local] Set Warnings "-clear-no-such-hyp".

(** ** Numbers *)

Inductive number :=
  | NaN
  | Fin (q : Qc).

(** Every number of the model is built by [mkNum], so that equal values are
    syntactically equal after evaluation. *)
Definition mkNum (q : Q) : Qc := Q2Qc (Qred q).
Definition num (z : Z) : Qc := mkNum (inject_Z z).

(** [x || 0] on a number: [NaN] and [0] are the falsy numbers. *)
Definition or_zero (n : number) : Qc :=
  match n with
  | NaN => 0
  | Fin q => q
  end.

Definition Math_max (a b : Qc) : Qc := if decide (a ≤ b) then b else a.

(** ** Strings *)

Definition code (c : ascii) : N := N_of_ascii c.

(** WhiteSpace and LineTerminator code units below 256: TAB, LF, VT, FF, CR,
    SP and NBSP.  This is the set of both [trim] and the regex class [\s]. *)
Definition isWhiteSpace (c : ascii) : bool :=
  bool_decide (code c ∈ [9; 10; 11; 12; 13; 32; 160]%N).

(** What the regex atom [.] refuses. *)
Definition isLineTerminator (c : ascii) : bool :=
  bool_decide (code c ∈ [10; 13]%N).

Fixpoint trimStart (s : string) : string :=
  match s with
  | String c s' => if isWhiteSpace c then trimStart s' else s
  | EmptyString => EmptyString
  end.

Fixpoint trimEnd (s : string) : string :=
  match s with
  | EmptyString => EmptyString
  | String c s' =>
      match trimEnd s' with
      | EmptyString => if isWhiteSpace c then EmptyString else String c EmptyString
      | t => String c t
      end
  end.

Definition trim (s : string) : string := trimEnd (trimStart s).

(** [s.split(sep)] for a one-character separator: never the empty array. *)
Fixpoint split (sep : ascii) (s : string) : list string :=
  match s with
  | EmptyString => [EmptyString]
  | String c s' =>
      if Ascii.eqb c sep then EmptyString :: split sep s'
      else match split sep s' with
           | seg :: rest => String c seg :: rest
           | [] => [String c EmptyString]
           end
  end.

Definition upper_char (c : ascii) : ascii :=
  if bool_decide (97 ≤ code c ≤ 122)%N then ascii_of_N (code c - 32) else c.

(** [s.toUpperCase()]: the letters a-z go to A-Z.  The code units above 127
    that JS would also map never become one of the letters compared below. *)
Fixpoint toUpperCase (s : string) : string :=
  match s with
  | EmptyString => EmptyString
  | String c s' => String (upper_char c) (toUpperCase s')
  end.

Fixpoint contains_char (ch : ascii) (s : string) : bool :=
  match s with
  | EmptyString => false
  | String c s' => Ascii.eqb c ch || contains_char ch s'
  end.

Fixpoint repeat_string (s : string) (n : nat) : string :=
  match n with
  | O => EmptyString
  | S n' => s +:+ repeat_string s n'
  end.

(** [s.padEnd(n)] with spaces. *)
Definition padEnd (s : string) (n : nat) : string :=
  s +:+ repeat_string " " (n - String.length s).

Fixpoint join (sep : string) (l : list string) : string :=
  match l with
  | [] => EmptyString
  | [s] => s
  | s :: rest => s +:+ sep +:+ join sep rest
  end.

(** ** parseFloat *)

Definition digit_of (c : ascii) : option Z :=
  if bool_decide (48 ≤ code c ≤ 57)%N then Some (Z.of_N (code c) - 48)%Z else None.

(** The longest run of decimal digits at the head of [s]: its value from the
    accumulator [acc], how many digits were read, and what follows. *)
Fixpoint take_digits (s : string) (acc : Z) (n : nat) : Z * nat * string :=
  match s with
  | String c s' =>
      match digit_of c with
      | Some d => take_digits s' (10 * acc + d)%Z (S n)
      | None => (acc, n, s)
      end
  | EmptyString => (acc, n, s)
  end.

Definition take_sign (s : string) : Z * string :=
  match s with
  | String "+" s' => (1%Z, s')
  | String "-" s' => ((-1)%Z, s')
  | _ => (1%Z, s)
  end.

(** The exponent part, when one is there in full: [e] or [E], an optional
    sign and at least one digit. Otherwise the literal ends before it. *)
Definition take_exponent (s : string) : Z :=
  match s with
  | String c s' =>
      if bool_decide (c = "e"%char ∨ c = "E"%char) then
        let '(sg, s1) := take_sign s' in
        let '(e, n, _) := take_digits s1 0%Z 0 in
        match n with O => 0%Z | _ => (sg * e)%Z end
      else 0%Z
  | EmptyString => 0%Z
  end.

(** [m * 10^e] as a rational. *)
Definition scale10 (m e : Z) : Q :=
  match e with
  | Zneg p => Qmake m (Pos.pow 10 p)
  | _ => inject_Z (m * 10 ^ e)
  end.

(** [parseFloat(s)]: skip leading white space, then read the longest prefix
    that is a decimal literal (sign, digits, fraction, exponent); [NaN] when
    there is none. *)
Definition parseFloat (s : string) : number :=
  let '(sg, s1) := take_sign (trimStart s) in
  let '(ip, n_ip, s2) := take_digits s1 0%Z 0 in
  let '(m, n_fp, s3) :=
    match s2 with
    | String "." s2' => take_digits s2' ip 0
    | _ => (ip, 0%nat, s2)
    end in
  match (n_ip + n_fp)%nat with
  | O => NaN
  | _ => Fin (mkNum (scale10 (sg * m) (take_exponent s3 - Z.of_nat n_fp)))
  end.

(** [parseFloat(x)] on a field that may be missing: [undefined] reads as the
    string "undefined", which is no number. *)
Definition parseFloat_field (x : option string) : number :=
  match x with
  | Some s => parseFloat s
  | None => NaN
  end.

(** ** Map *)

Definition Map (V : Type) : Type := list (string * V).

Fixpoint Map_get {V} (m : Map V) (k : string) : option V :=
  match m with
  | [] => None
  | (k', v) :: m' => if decide (k' = k) then Some v else Map_get m' k
  end.

(** [m.set(k, v)]: an existing key keeps its place, a new one goes last. *)
Fixpoint Map_set {V} (m : Map V) (k : string) (v : V) : Map V :=
  match m with
  | [] => [(k, v)]
  | (k', v') :: m' =>
      if decide (k' = k) then (k', v) :: m' else (k', v') :: Map_set m' k v
  end.

Definition Map_keys {V} (m : Map V) : list string := m.*1.

Definition Map_size {V} (m : Map V) : nat := length m.

(** [map.get(k) || 0]. *)
Definition get_or_zero (m : Map Qc) (k : string) : Qc :=
  match Map_get m k with
  | Some v => v
  | None => 0
  end.

(** The statement pair that the script repeats in the merge and in three
    extractors:
    [const existing = map.get(k) || 0; map.set(k, Math.max(existing, v))]. *)
Definition keep_max (m : Map Qc) (k : string) (v : Qc) : Map Qc :=
  let existing := get_or_zero m k in
  Map_set m k (Math_max existing v).

(** ** Configuration *)

Definition LEAGUE_ID : string := "13522".
Definition BASE_URL : string := "https://www49.myfantasyleague.com".
Definition YEARS : list N := [2021; 2022; 2023; 2024; 2025]%N.
Definition POSITIONS : list string := ["QB"; "RB"; "WR"; "TE"; "PK"; "Def"].
Definition TOP_N : nat := 30.
Definition REQUEST_DELAY_MS : N := 1000.
Definition MAX_RETRIES : N := 3.
Definition RETRY_BACKOFF_MS : N := 1500.

Definition EXCLUDED_POSITIONS : list string :=
  [ "TMWR"; "TMRB"; "TMDL"; "TMTE"; "TMQB"; "TMPK"; "TMPN"; "TMLB"; "TMDB";
    "ST"; "Off"; "HB"; "CB"; "DB"; "DL"; "LB"; "S"; "DE"; "DT"; "FB" ].

(** ** Helpers *)

(** A collection field of the export: missing, a lone object, or an array. *)
Inductive oneOrMany (A : Type) :=
  | Missing
  | One (a : A)
  | Many (l : list A).
Arguments Missing {A}.
Arguments One {A} a.
Arguments Many {A} l.

Definition ensureArray {A} (value : oneOrMany A) : list A :=
  match value with
  | Missing => []
  | Many l => l
  | One a => [a]
  end.

(** A string field is truthy when it is there and not empty. *)
Definition truthy_field (x : option string) : option string :=
  match x with
  | Some EmptyString => None
  | other => other
  end.

(** The regex tail [\s*(.+)$] at [s], with the greedy [\s*] giving back one
    character at a time: the text of group 2, if the tail matches. *)
Fixpoint match_tail (s : string) : option string :=
  let dot_plus :=
    match s with
    | EmptyString => None
    | _ => if forallb (λ c, negb (isLineTerminator c)) (list_ascii_of_string s)
           then Some s else None
    end in
  match s with
  | EmptyString => None
  | String c s' =>
      if isWhiteSpace c then
        match match_tail s' with
        | Some g => Some g
        | None => dot_plus
        end
      else dot_plus
  end.

(** Group 1 of [^([^,]+),]: the text before the first comma, and what comes
    after that comma. *)
Fixpoint before_comma (s : string) : option (string * string) :=
  match s with
  | EmptyString => None
  | String c s' =>
      if Ascii.eqb c "," then Some (EmptyString, s')
      else match before_comma s' with
           | Some (g, rest) => Some (String c g, rest)
           | None => None
           end
  end.

(** [mflName.match(/^([^,]+),\s*(.+)$/)]: groups 1 and 2. *)
Definition match_name (s : string) : option (string * string) :=
  match before_comma s with
  | Some (EmptyString, _) => None
  | Some (g1, rest) =>
      match match_tail rest with
      | Some g2 => Some (g1, g2)
      | None => None
      end
  | None => None
  end.

Definition formatName (mflName : option string) : string :=
  match truthy_field mflName with
  | None => "Unknown"
  | Some s =>
      match match_name s with
      | None => s
      | Some (g1, g2) => trim g2 +:+ " " +:+ trim g1
      end
  end.

(** The object literal of [normalizePosition]; its keys are upper case, and
    every name it inherits from [Object.prototype] has a lower-case letter,
    so [map[upper]] is an own property or undefined. *)
Definition position_map : list (string * string) :=
  [ ("QB", "QB"); ("RB", "RB"); ("WR", "WR"); ("TE", "TE"); ("PK", "PK");
    ("DEF", "Def") ].

Definition normalizePosition (pos : option string) : option string :=
  match truthy_field pos with
  | None => None
  | Some p =>
      if bool_decide (p ∈ EXCLUDED_POSITIONS) then None
      else
        let upper := toUpperCase p in
        if decide (upper = "DEF") then Some "Def"
        else if decide (upper = "K") then Some "PK"
        else Map_get position_map upper
  end.

(** [mergeInto(target, source)]: the target after the loop. *)
Definition mergeInto (target source : Map Qc) : Map Qc :=
  fold_left (λ target '(playerId, salary), keep_max target playerId salary)
            source target.

(** ** The world: network, console, clock and disk *)

#[local] Set Warnings "-register-all".

(** The free-form [error] member of a response body. *)
Inductive json :=
  | JNull
  | JBool (b : bool)
  | JNum (n : Qc)
  | JStr (s : string)
  | JArr (items : list json)
  | JObj (members : list (string * json)).

Definition truthy (j : json) : bool :=
  match j with
  | JNull => false
  | JBool b => b
  | JNum n => negb (bool_decide (n = 0))
  | JStr s => negb (bool_decide (s = ""))
  | JArr _ | JObj _ => true
  end.

Record rosterPlayer := { rp_id : option string; rp_salary : option string }.
Record franchise := { fr_player : oneOrMany rosterPlayer }.
Record auction := { au_player : option string; au_winningBid : option string }.
Record txRecord := { tx_transaction : option string }.
Record playerRecord :=
  { pl_id : option string; pl_position : option string; pl_name : option string }.

(** A parsed body, seen through the paths the script reads:
    [data.error], [data.rosters.franchise],
    [data.auctionResults.auctionUnit.auction],
    [data.transactions.transaction] and [data.players.player].
    A path that breaks off anywhere is [Missing]. *)
Record body := {
  error : option json;
  rosters_franchise : oneOrMany franchise;
  auctionResults_auction : oneOrMany auction;
  transactions_transaction : oneOrMany txRecord;
  players_player : oneOrMany playerRecord
}.

Inductive payload :=
  | NotJson (message : string)
  | Parsed (data : body).

Record http_response := {
  status : N;
  statusText : string;
  content : payload
}.

(** What one call of [fetch(url)] settles to. *)
Inductive response :=
  | NetworkError (message : string)
  | Http (r : http_response).

(** [response.ok] *)
Definition response_ok (r : http_response) : bool :=
  bool_decide (200 ≤ status r ≤ 299)%N.

Record entry := { name : string; salary : Qc }.

(** A workbook: per sheet, its name and the data it lays out (the cells
    and their styles are the renderer's matter). *)
Definition workbook : Type := list (string * Map (list entry)).

Inductive event :=
  | Fetch (url : string)
  | Sleep (ms : N)
  | ConsoleLog (text : string)
  | ConsoleWarn (text : string)
  | ConsoleError (args : list string)
  | WriteFile (filename : string) (wb : workbook)
  | Exit (code : N)
  (* bookkeeping, not effects: where a call of [fetchJson] ends *)
  | Returned (url : string)
  | Exhausted (url : string) (message : string).

(** What the script takes from its surroundings: the answer to the n-th
    request of the run, [JSON.stringify], and the current date as
    [new Date().toISOString().slice(0, 10)] gives it. *)
Record runtime := {
  net : nat → response;
  JSON_stringify : json → string;
  today : string
}.

Record world := {
  requests : nat;
  log : list event
}.

Definition initial_world : world := {| requests := 0; log := [] |}.

Definition record (e : event) (w : world) : world :=
  {| requests := requests w; log := log w ++ [e] |}.

Inductive outcome (A : Type) :=
  | Ok (a : A)
  | Throw (message : string).
Arguments Ok {A} a.
Arguments Throw {A} message.

Definition M (A : Type) : Type := world → outcome A * world.

#[global] Instance M_ret : MRet M := λ A a w, (Ok a, w).
#[global] Instance M_bind : MBind M := λ A B k m w,
  match m w with
  | (Ok a, w') => k a w'
  | (Throw e, w') => (Throw e, w')
  end.

Definition throw {A} (message : string) : M A := λ w, (Throw message, w).

(** [try { body } catch (err) { handler }] *)
Definition try_catch {A} (body : M A) (handler : string → M A) : M A := λ w,
  match body w with
  | (Ok a, w') => (Ok a, w')
  | (Throw e, w') => handler e w'
  end.

Definition lift {A} (o : outcome A) : M A := λ w, (o, w).

Definition emit (e : event) : M unit := λ w, (Ok tt, record e w).

Definition console_log (text : string) : M unit := emit (ConsoleLog text).
Definition console_warn (text : string) : M unit := emit (ConsoleWarn text).
Definition console_error (args : list string) : M unit := emit (ConsoleError args).
Definition delay (ms : N) : M unit := emit (Sleep ms).

(** [await fetch(url)] *)
Definition fetch (rt : runtime) (url : string) : M http_response := λ w,
  let w' := {| requests := S (requests w); log := log w ++ [Fetch url] |} in
  match net rt (requests w) with
  | NetworkError message => (Throw message, w')
  | Http r => (Ok r, w')
  end.

(** [await response.json()] *)
Definition response_json (r : http_response) : M body :=
  match content r with
  | NotJson message => throw message
  | Parsed data => mret data
  end.

(** ** API layer *)

(** The [try] block of [fetchJson]. *)
Definition attempt_once (rt : runtime) (url : string) : M body :=
  response ← fetch rt url;
  if negb (response_ok response) then
    throw ("HTTP " +:+ pretty (status response) +:+ ": " +:+ statusText response)
  else
    data ← response_json response;
    match error data with
    | Some e =>
        if truthy e then throw ("MFL error: " +:+ JSON_stringify rt e)
        else mret data
    | None => mret data
    end.

(** The values [attempt] takes in
    [for (let attempt = 1; attempt <= MAX_RETRIES; attempt++)]. *)
Definition attempt_numbers : list N := N.of_nat <$> seq 1 (N.to_nat MAX_RETRIES).

(** The loop of [fetchJson] over the attempts still to make; falling out of
    the loop would return [undefined] ([None]). *)
Fixpoint fetchJson_loop (rt : runtime) (url : string) (attempts : list N)
  : M (option body) :=
  match attempts with
  | [] => mret None
  | attempt :: rest =>
      try_catch
        (data ← attempt_once rt url; mret (Some data))
        (λ err_message,
           if decide (attempt = MAX_RETRIES) then
             throw ("Failed after " +:+ pretty MAX_RETRIES +:+ " attempts: "
                    +:+ url +:+ " — " +:+ err_message)
           else
             let wait := (RETRY_BACKOFF_MS * attempt)%N in
             console_warn ("  Retry " +:+ pretty attempt +:+ "/" +:+ pretty MAX_RETRIES
                           +:+ " in " +:+ pretty wait +:+ "ms (" +:+ err_message +:+ ")");;
             delay wait;;
             fetchJson_loop rt url rest)
  end.

(** [fetchJson(url)]; the end of the call is marked in the log. *)
Definition fetchJson (rt : runtime) (url : string) : M (option body) := λ w,
  match fetchJson_loop rt url attempt_numbers w with
  | (Ok data, w') => (Ok data, record (Returned url) w')
  | (Throw e, w') => (Throw e, record (Exhausted url e) w')
  end.

(** [buildUrl(year, params)]; the parameter values of the script need no
    percent-encoding. *)
Definition buildUrl (year : N) (params : list (string * string)) : string :=
  let qs := join "&" ((λ '(k, v), k +:+ "=" +:+ v)
                        <$> ([("L", LEAGUE_ID); ("JSON", "1")] ++ params)%list) in
  BASE_URL +:+ "/" +:+ pretty year +:+ "/export?" +:+ qs.

(** [data?.path] on what [fetchJson] returned. *)
Definition path {A} (field : body → oneOrMany A) (data : option body) : oneOrMany A :=
  match data with
  | Some d => field d
  | None => Missing
  end.

(** ** Data fetching *)

(** The body of the inner loop of [fetchRosters]. *)
Definition roster_step (salaryMap : Map Qc) (p : rosterPlayer) : Map Qc :=
  match truthy_field (rp_id p) with
  | None => salaryMap
  | Some id =>
      let salary := or_zero (parseFloat_field (rp_salary p)) in
      if decide (0 < salary) then keep_max salaryMap id salary else salaryMap
  end.

(** The salary map [fetchRosters] builds from [data]. *)
Definition roster_salaries (data : option body) : Map Qc :=
  let franchises := ensureArray (path rosters_franchise data) in
  fold_left (λ salaryMap franchise,
               fold_left roster_step (ensureArray (fr_player franchise)) salaryMap)
            franchises [].

Definition fetchRosters (rt : runtime) (year week : N) : M (Map Qc) :=
  let url := buildUrl year [("TYPE", "rosters"); ("W", pretty week)] in
  console_log ("  Rosters (W" +:+ pretty week +:+ "):  " +:+ url);;
  data ← fetchJson rt url;
  mret (roster_salaries data).

(** The body of the loop of [fetchAuctionResults]. *)
Definition auction_step (salaryMap : Map Qc) (a : auction) : Map Qc :=
  match truthy_field (au_player a) with
  | None => salaryMap
  | Some player =>
      let bid := or_zero (parseFloat_field (au_winningBid a)) in
      if decide (0 < bid) then keep_max salaryMap player bid else salaryMap
  end.

Definition auction_salaries (data : option body) : Map Qc :=
  fold_left auction_step (ensureArray (path auctionResults_auction data)) [].

Definition fetchAuctionResults (rt : runtime) (year : N) : M (Map Qc) :=
  let url := buildUrl year [("TYPE", "auctionResults")] in
  console_log ("  Auction Results: " +:+ url);;
  data ← fetchJson rt url;
  mret (auction_salaries data).

(** [parts[2].split(',').map(s => s.trim()).filter(Boolean)] *)
Definition added_ids (segment : string) : list string :=
  filter (λ s, s ≠ "") (trim <$> split "," segment).

(** The body of the loop of [fetchBbidTransactions]. *)
Definition bbid_step (salaryMap : Map Qc) (tx : txRecord) : Map Qc :=
  match truthy_field (tx_transaction tx) with
  | None => salaryMap
  | Some transaction =>
      let parts := split "|" transaction in
      if decide (length parts < 3)%nat then salaryMap
      else
        let bidAmount := or_zero (parseFloat_field (parts !! 1%nat)) in
        if decide (bidAmount ≤ 0) then salaryMap
        else
          let addedIds := added_ids (default "" (parts !! 2%nat)) in
          fold_left (λ salaryMap playerId, keep_max salaryMap playerId bidAmount)
                    addedIds salaryMap
  end.

(** Lines 184-205: the salary map built from the transaction records. *)
Definition bbid_salaries_of (transactions : list txRecord) : Map Qc :=
  fold_left bbid_step transactions [].

Definition bbid_salaries (data : option body) : Map Qc :=
  bbid_salaries_of (ensureArray (path transactions_transaction data)).

Definition fetchBbidTransactions (rt : runtime) (year : N) : M (Map Qc) :=
  let url := buildUrl year [("TYPE", "transactions"); ("TRANS_TYPE", "BBID_WAIVER");
                            ("COUNT", "500")] in
  console_log ("  BBID Waivers:    " +:+ url);;
  data ← fetchJson rt url;
  mret (bbid_salaries data).

Record metadata := { meta_name : string; position : string }.

(** The body of the loop of [fetchPlayerMetadata]. *)
Definition metadata_step (playerMap : Map metadata) (p : playerRecord) : Map metadata :=
  match truthy_field (pl_id p) with
  | None => playerMap
  | Some id =>
      match truthy_field (normalizePosition (pl_position p)) with
      | None => playerMap
      | Some pos =>
          Map_set playerMap id
                  {| meta_name := formatName (pl_name p); position := pos |}
      end
  end.

(** Lines 217-231: the metadata map built from the player records. *)
Definition player_metadata_of (players : list playerRecord) : Map metadata :=
  fold_left metadata_step players [].

Definition player_metadata (data : option body) : Map metadata :=
  player_metadata_of (ensureArray (path players_player data)).

Definition fetchPlayerMetadata (rt : runtime) (year : N) : M (Map metadata) :=
  let url := buildUrl year [("TYPE", "players"); ("DETAILS", "1")] in
  console_log ("  Players:         " +:+ url);;
  data ← fetchJson rt url;
  mret (player_metadata data).

(** ** Data processing *)

(** The names every plain object inherits from [Object.prototype]; each is
    a function or an object, so truthy, and none has a [push] method. *)
Definition Object_prototype_names : list string :=
  [ "constructor"; "__defineGetter__"; "__defineSetter__"; "hasOwnProperty";
    "__lookupGetter__"; "__lookupSetter__"; "isPrototypeOf";
    "propertyIsEnumerable"; "toString"; "valueOf"; "__proto__";
    "toLocaleString" ].

Inductive property (A : Type) :=
  | Own (a : A)
  | Inherited
  | Undefined.
Arguments Own {A} a.
Arguments Inherited {A}.
Arguments Undefined {A}.

(** [obj[key]] on a plain object whose own properties are [obj]. *)
Definition get_property {A} (obj : Map A) (key : string) : property A :=
  match Map_get obj key with
  | Some a => Own a
  | None => if bool_decide (key ∈ Object_prototype_names) then Inherited else Undefined
  end.

(** [groups], after [groups[pos] = []] for every tracked position. *)
Definition empty_groups : Map (list entry) :=
  fold_left (λ groups pos, Map_set groups pos []) POSITIONS [].

(** The grouping loop of [rankByPosition] over the entries of [salaryMap]
    still to visit.  A bucket is an array, so it is truthy even when empty;
    an inherited value passes the truthiness test and fails at [push]. *)
Fixpoint fill_groups (playerMap : Map metadata) (entries : list (string * Qc))
    (groups : Map (list entry)) : outcome (Map (list entry)) :=
  match entries with
  | [] => Ok groups
  | (playerId, salary) :: rest =>
      match Map_get playerMap playerId with
      | None => fill_groups playerMap rest groups
      | Some meta =>
          match get_property groups (position meta) with
          | Undefined => fill_groups playerMap rest groups
          | Inherited => Throw "groups[meta.position].push is not a function"
          | Own bucket =>
              fill_groups playerMap rest
                (Map_set groups (position meta)
                         (bucket ++ [{| name := meta_name meta; salary := salary |}])%list)
          end
      end
  end.

(** The comparator [(a, b) => b.salary - a.salary]. *)
Definition by_salary_desc (a b : entry) : Qc := salary b - salary a.

(** [Array.prototype.sort] is stable, and for a consistent comparator its
    result is determined by that: the elements in comparator order, equal
    ones in the order they had.  Insertion from the right computes it: [x]
    stood before all of [l] and goes in front of the first element it must
    not follow. *)
Fixpoint sort_insert {A} (cmp : A → A → Qc) (x : A) (l : list A) : list A :=
  match l with
  | [] => [x]
  | y :: l' => if decide (cmp x y ≤ 0) then x :: l else y :: sort_insert cmp x l'
  end.

Definition Array_sort {A} (cmp : A → A → Qc) (l : list A) : list A :=
  foldr (sort_insert cmp) [] l.

Definition bucket_of (groups : Map (list entry)) (pos : string) : list entry :=
  default [] (Map_get groups pos).

(** The second loop of [rankByPosition]. *)
Definition rank_groups (groups : Map (list entry)) : Map (list entry) :=
  fold_left (λ ranked pos,
               Map_set ranked pos
                       (take TOP_N (Array_sort by_salary_desc (bucket_of groups pos))))
            POSITIONS [].

Definition rankByPosition (salaryMap : Map Qc) (playerMap : Map metadata)
  : outcome (Map (list entry)) :=
  match fill_groups playerMap salaryMap empty_groups with
  | Ok groups => Ok (rank_groups groups)
  | Throw e => Throw e
  end.

(** Lines 298-302: the merge of the four salary maps of a season. *)
Definition merge_season (rostersW1 rostersW14 auctionSalaries bbidSalaries : Map Qc)
  : Map Qc :=
  let merged := [] in
  let merged := mergeInto merged rostersW1 in
  let merged := mergeInto merged rostersW14 in
  let merged := mergeInto merged auctionSalaries in
  let merged := mergeInto merged bbidSalaries in
  merged.

(** [allData]: position -> (year -> ranked entries).  A year is a property
    key in its decimal form; integer keys iterate in ascending order, which
    is the order [YEARS] inserts them in. *)
Definition report : Type := Map (Map (list entry)).

Definition empty_report : report :=
  fold_left (λ allData pos, Map_set allData pos []) POSITIONS [].

(** [allData[pos][year] = ranked[pos]] *)
Definition store_ranked (year : N) (ranked : Map (list entry)) (allData : report)
    (pos : string) : report :=
  Map_set allData pos
          (Map_set (default [] (Map_get allData pos)) (pretty year) (bucket_of ranked pos)).

(** One turn of the loop of [collectAllData]. *)
Definition collect_year (rt : runtime) (year : N) (allData : report) : M report :=
  console_log (String "010" (repeat_string "=" 60));;
  console_log ("Fetching " +:+ pretty year +:+ "...");;
  rostersW1 ← fetchRosters rt year 1;
  delay REQUEST_DELAY_MS;;
  rostersW14 ← fetchRosters rt year 14;
  delay REQUEST_DELAY_MS;;
  auctionSalaries ← fetchAuctionResults rt year;
  delay REQUEST_DELAY_MS;;
  bbidSalaries ← fetchBbidTransactions rt year;
  delay REQUEST_DELAY_MS;;
  playerMap ← fetchPlayerMetadata rt year;
  delay REQUEST_DELAY_MS;;
  let merged := merge_season rostersW1 rostersW14 auctionSalaries bbidSalaries in
  ranked ← lift (rankByPosition merged playerMap);
  console_log ("  W1: " +:+ pretty (Map_size rostersW1)
               +:+ " | W14: " +:+ pretty (Map_size rostersW14)
               +:+ " | Auction: " +:+ pretty (Map_size auctionSalaries)
               +:+ " | BBID: " +:+ pretty (Map_size bbidSalaries)
               +:+ " | Merged: " +:+ pretty (Map_size merged));;
  mapM (λ pos, console_log ("    " +:+ padEnd pos 4 +:+ " top "
                            +:+ pretty (length (bucket_of ranked pos)))) POSITIONS;;
  mret (fold_left (store_ranked year ranked) POSITIONS allData).

Fixpoint collect_years (rt : runtime) (years : list N) (allData : report) : M report :=
  match years with
  | [] => mret allData
  | year :: rest =>
      allData ← collect_year rt year allData;
      collect_years rt rest allData
  end.

Definition collectAllData (rt : runtime) : M report :=
  collect_years rt YEARS empty_report.

(** ** Excel output *)

Definition createWorkbook (allData : report) : workbook :=
  (λ pos, (pos, default [] (Map_get allData pos))) <$> POSITIONS.

Definition XLSX_writeFile (wb : workbook) (filename : string) : M unit :=
  emit (WriteFile filename wb).

(** ** Main *)

(** The [try] block of [main]. *)
Definition export (rt : runtime) : M unit :=
  allData ← collectAllData rt;
  let timestamp := today rt in
  let filename := "mfl-salary-top30-" +:+ timestamp +:+ ".xlsx" in
  let wb := createWorkbook allData in
  XLSX_writeFile wb filename;;
  console_log (String "010" (repeat_string "=" 60));;
  console_log ("Done! Exported to " +:+ filename).

(** [main()], from a given world to the exit status of the process and the
    world it leaves. *)
Definition main (rt : runtime) (w : world) : N * world :=
  let banner :=
    console_log "MFL Salary Top 30 Exporter";;
    console_log ("League: " +:+ LEAGUE_ID +:+ " | Years: " +:+ join ", " (pretty <$> YEARS)
                 +:+ " | Positions: " +:+ join ", " POSITIONS);;
    console_log "Sources: W1 Rosters + W14 Rosters + Auction Results + BBID Waivers" in
  let w := (banner w).2 in
  match export rt w with
  | (Ok _, w') => (0%N, w')
  | (Throw err_message, w') =>
      (1%N, record (Exit 1) (record (ConsoleError [String "010" "Fatal error:"; err_message]) w'))
  end.

(** ** Vocabulary of the statements *)

(** Two maps hold the same mapping: the same keys, the same value per key
    (the insertion order may differ). *)
Definition same_mapping {V} (m1 m2 : Map V) : Prop :=
  ∀ k, Map_get m1 k = Map_get m2 k.

(** A salary mapping as the data model has it: one amount per player, and
    no amount below zero. *)
Definition salary_mapping (m : Map Qc) : Prop :=
  NoDup (Map_keys m) ∧ Forall (λ kv, 0 ≤ kv.2) m.

(** What the extractors build: one amount per player, every amount above
    zero. *)
Definition recorded (m : Map Qc) : Prop :=
  NoDup (Map_keys m) ∧ Forall (λ kv, 0 < kv.2) m.

(** The amounts a list of observations records for [k], in order. *)
Definition values_of (m : list (string * Qc)) (k : string) : list Qc :=
  omap (λ kv, if decide (kv.1 = k) then Some kv.2 else None) m.

(** The entries the grouping loop meets for [pos], in the iteration order of
    the salary map: the players that have metadata with that position. *)
Definition qualifying (playerMap : Map metadata) (salaryMap : Map Qc) (pos : string)
  : list entry :=
  omap (λ kv,
          match Map_get playerMap kv.1 with
          | Some meta =>
              if decide (position meta = pos)
              then Some {| name := meta_name meta; salary := kv.2 |} else None
          | None => None
          end) salaryMap.

Definition has_metadata (playerMap : Map metadata) (kv : string * Qc) : bool :=
  bool_decide (is_Some (Map_get playerMap kv.1)).

(** Sorted from the largest amount down. *)
Definition non_increasing (l : list entry) : Prop :=
  StronglySorted (λ a b, salary b ≤ salary a) l.

(** The entries of amount [v], in the order of the list. *)
Definition of_amount (v : Qc) (l : list entry) : list entry :=
  filter (λ e, salary e = v) l.

(** Every position of the metadata is a tracked one. *)
Definition tracked_positions (playerMap : Map metadata) : Prop :=
  ∀ id meta, Map_get playerMap id = Some meta → position meta ∈ POSITIONS.

(** No position of the metadata is a name inherited from [Object.prototype]. *)
Definition plain_positions (playerMap : Map metadata) : Prop :=
  ∀ id meta, Map_get playerMap id = Some meta →
             position meta ∉ Object_prototype_names.

(** The recognized position codes, in upper case, with their canonical
    form. *)
Definition recognized_positions : Map string :=
  [ ("QB", "QB"); ("RB", "RB"); ("WR", "WR"); ("TE", "TE"); ("PK", "PK");
    ("K", "PK"); ("DEF", "Def") ].

Definition is_lower (c : ascii) : bool := bool_decide (97 ≤ code c ≤ 122)%N.




(** How one attempt of [fetchJson] ends, given what [fetch] settles to. *)
Inductive attempt_result :=
  | Succeeds (data : body)
  | Fails (message : string).

Definition settle (rt : runtime) (r : response) : attempt_result :=
  match r with
  | NetworkError message => Fails message
  | Http r =>
      if response_ok r then
        match content r with
        | NotJson message => Fails message
        | Parsed data =>
            match error data with
            | Some e =>
                if truthy e then Fails ("MFL error: " +:+ JSON_stringify rt e)
                else Succeeds data
            | None => Succeeds data
            end
        end
      else Fails ("HTTP " +:+ pretty (status r) +:+ ": " +:+ statusText r)
  end.

(** The world after [n] more requests and the events [evs]. *)
Definition after (w : world) (n : nat) (evs : list event) : world :=
  {| requests := requests w + n; log := (log w ++ evs)%list |}.

(** The warning before the retry that follows attempt [k]. *)
Definition retry_warning (k : N) (message : string) : event :=
  ConsoleWarn ("  Retry " +:+ pretty k +:+ "/3 in " +:+ pretty (RETRY_BACKOFF_MS * k)%N
               +:+ "ms (" +:+ message +:+ ")").

(** The error of a call of [fetchJson] that has used up its attempts. *)
Definition exhausted_message (url message : string) : string :=
  "Failed after 3 attempts: " +:+ url +:+ " — " +:+ message.

(** Events other than the three that end a run or mark a failed call. *)
Definition quiet_event (e : event) : Prop :=
  match e with
  | Exhausted _ _ | WriteFile _ _ | Exit _ => False
  | _ => True
  end.

Definition quiet (evs : list event) : Prop := Forall quiet_event evs.

(** The URLs of the calls of [fetchJson] that returned, in order. *)
Definition returned_urls (evs : list event) : list string :=
  omap (λ e, match e with Returned url => Some url | _ => None end) evs.

(** The five requests of a season and the twenty-five of a run. *)
Definition season_urls (year : N) : list string :=
  [ buildUrl year [("TYPE", "rosters"); ("W", "1")];
    buildUrl year [("TYPE", "rosters"); ("W", "14")];
    buildUrl year [("TYPE", "auctionResults")];
    buildUrl year [("TYPE", "transactions"); ("TRANS_TYPE", "BBID_WAIVER");
                   ("COUNT", "500")];
    buildUrl year [("TYPE", "players"); ("DETAILS", "1")] ].

Definition all_urls : list string := flat_map season_urls YEARS.

(** [m] requests [urls] in order and nothing else: it returns, with a result
    in [Q], after every one of them returned; or it throws what a call of
    [fetchJson] threw when that call ran out of attempts, right there. *)
Definition runs {A} (m : M A) (urls : list string) (Q : A → Prop) : Prop :=
  ∀ w,
    match m w with
    | (Ok a, w') =>
        Q a ∧ ∃ evs, log w' = (log w ++ evs)%list ∧ quiet evs ∧ returned_urls evs = urls
    | (Throw e, w') =>
        ∃ evs url,
          log w' = (log w ++ evs ++ [Exhausted url e])%list
          ∧ quiet evs
          ∧ (returned_urls evs ++ [url])%list `prefix_of` urls
          ∧ ∃ message, e = exhausted_message url message
    end.

(** Sample surroundings for the examples. *)
Definition empty_body : body :=
  {| error := None; rosters_franchise := Missing; auctionResults_auction := Missing;
     transactions_transaction := Missing; players_player := Missing |}.

Definition ok_response (data : body) : response :=
  Http {| status := 200; statusText := "OK"; content := Parsed data |}.

Definition sample_runtime (net : nat → response) : runtime :=
  {| net := net; JSON_stringify := λ _, "{}"; today := "2026-01-01" |}.

(** * Properties *)

(** ** Numbers *)

Lemma Math_max_l (a b : Qc) : a ≤ Math_max a b.
Proof. unfold Math_max. case_decide; [done | apply Qcle_refl]. Qed.

Lemma Math_max_r (a b : Qc) : b ≤ Math_max a b.
Proof.
  unfold Math_max. case_decide; [apply Qcle_refl |].
  apply Qclt_le_weak. by apply Qcnot_le_lt.
Qed.

Lemma Math_max_lub (a b c : Qc) : a ≤ c → b ≤ c → Math_max a b ≤ c.
Proof. unfold Math_max. by case_decide. Qed.

Lemma Math_max_cases (a b : Qc) : Math_max a b = a ∨ Math_max a b = b.
Proof. unfold Math_max. case_decide; auto. Qed.

(** [Math_max] is the larger of its two arguments. *)
Lemma Math_max_spec (a b : Qc) :
  a ≤ Math_max a b ∧ b ≤ Math_max a b ∧ (Math_max a b = a ∨ Math_max a b = b).
Proof. auto using Math_max_l, Math_max_r, Math_max_cases. Qed.

Lemma Math_max_le_iff (a b c : Qc) : Math_max a b ≤ c ↔ a ≤ c ∧ b ≤ c.
Proof.
  split.
  - intros H. split; (eapply Qcle_trans; [| exact H]);
      [apply Math_max_l | apply Math_max_r].
  - intros [??]. by apply Math_max_lub.
Qed.

Lemma Math_max_swap (a x y : Qc) :
  Math_max (Math_max a x) y = Math_max (Math_max a y) x.
Proof.
  apply Qcle_antisym; rewrite !Math_max_le_iff; repeat split;
    eauto using Math_max_l, Math_max_r, Qcle_trans.
Qed.

Lemma Math_max_zero_r (a : Qc) : 0 ≤ a → Math_max a 0 = a.
Proof.
  intros H. unfold Math_max. case_decide; [by apply Qcle_antisym | done].
Qed.

Lemma Math_max_zero_l (a : Qc) : 0 ≤ a → Math_max 0 a = a.
Proof. intros H. unfold Math_max. by case_decide. Qed.

(** The running maximum of a list from a base value. *)
Lemma fold_max_base (l : list Qc) (b : Qc) : b ≤ fold_left Math_max l b.
Proof.
  revert b. induction l as [| x l IH]; intros b; simpl; [apply Qcle_refl |].
  eapply Qcle_trans; [apply Math_max_l | apply IH].
Qed.

Lemma fold_max_upper (l : list Qc) (b x : Qc) : x ∈ l → x ≤ fold_left Math_max l b.
Proof.
  revert b. induction l as [| y l IH]; intros b Hx; [by apply elem_of_nil in Hx |].
  apply elem_of_cons in Hx as [-> | Hx]; simpl; [| by apply IH].
  eapply Qcle_trans; [apply Math_max_r | apply fold_max_base].
Qed.

Lemma fold_max_attained (l : list Qc) (b : Qc) :
  fold_left Math_max l b = b ∨ fold_left Math_max l b ∈ l.
Proof.
  revert b. induction l as [| y l IH]; intros b; simpl; [by left |].
  destruct (IH (Math_max b y)) as [-> | H]; [| right; by apply list_elem_of_further].
  destruct (Math_max_cases b y) as [-> | ->]; [by left | right; apply list_elem_of_here].
Qed.

Lemma fold_max_Permutation (l l' : list Qc) (b : Qc) :
  Permutation l l' → fold_left Math_max l b = fold_left Math_max l' b.
Proof.
  intros H. revert b.
  induction H as [| x l l' _ IH | x y l | l l' l'' _ IH1 _ IH2]; intros b; simpl.
  - done.
  - apply IH.
  - by rewrite Math_max_swap.
  - by rewrite IH1.
Qed.

(** ** Maps *)

Lemma Map_get_set {V} (m : Map V) (k k' : string) (v : V) :
  Map_get (Map_set m k v) k' = if decide (k = k') then Some v else Map_get m k'.
Proof.
  induction m as [| [k0 v0] m IH]; simpl.
  - done.
  - destruct (decide (k0 = k)) as [-> | Hne]; simpl.
    + by destruct (decide (k = k')).
    + rewrite IH. repeat case_decide; by simplify_eq.
Qed.

Lemma Map_keys_set {V} (m : Map V) (k : string) (v : V) :
  Map_keys (Map_set m k v)
  = if decide (k ∈ Map_keys m) then Map_keys m else (Map_keys m ++ [k])%list.
Proof.
  unfold Map_keys. induction m as [| [k0 v0] m IH].
  - destruct (decide (k ∈ [].*1)) as [H | _]; [by apply elem_of_nil in H | done].
  - cbn [Map_set]. destruct (decide (k0 = k)) as [-> | Hne].
    + destruct (decide (k ∈ ((k, v0) :: m).*1)) as [_ | H]; [done |].
      destruct H. apply list_elem_of_here.
    + rewrite fmap_cons, IH.
      destruct (decide (k ∈ m.*1)) as [Hin | Hnin];
        destruct (decide (k ∈ ((k0, v0) :: m).*1)) as [Hin' | Hnin']; try done.
      * destruct Hnin'. by apply list_elem_of_further.
      * apply elem_of_cons in Hin' as [-> | ?]; done.
Qed.

Lemma elem_of_Map_keys_set {V} (m : Map V) (k k' : string) (v : V) :
  k' ∈ Map_keys (Map_set m k v) ↔ k' = k ∨ k' ∈ Map_keys m.
Proof.
  rewrite Map_keys_set. case_decide.
  - naive_solver.
  - rewrite elem_of_app, list_elem_of_singleton. naive_solver.
Qed.

Lemma NoDup_Map_keys_set {V} (m : Map V) (k : string) (v : V) :
  NoDup (Map_keys m) → NoDup (Map_keys (Map_set m k v)).
Proof.
  intros H. rewrite Map_keys_set. case_decide; [done |].
  apply NoDup_app. split_and!; [done | | apply NoDup_singleton].
  intros x Hx ->%list_elem_of_singleton. done.
Qed.

Lemma Map_get_None {V} (m : Map V) (k : string) :
  Map_get m k = None ↔ k ∉ Map_keys m.
Proof.
  unfold Map_keys. induction m as [| [k0 v0] m IH]; simpl.
  - split; [intros _; apply not_elem_of_nil | done].
  - rewrite not_elem_of_cons. destruct (decide (k0 = k)) as [-> | ?]; naive_solver.
Qed.

Lemma Map_get_is_Some {V} (m : Map V) (k : string) :
  is_Some (Map_get m k) ↔ k ∈ Map_keys m.
Proof.
  rewrite <-not_eq_None_Some, Map_get_None.
  destruct (decide (k ∈ Map_keys m)); naive_solver.
Qed.

Lemma Map_get_elem_of {V} (m : Map V) (k : string) (v : V) :
  Map_get m k = Some v → (k, v) ∈ m.
Proof.
  induction m as [| [k0 v0] m IH]; simpl; [done |].
  destruct (decide (k0 = k)) as [-> | ?].
  - intros [= ->]. apply list_elem_of_here.
  - intros H. apply list_elem_of_further. auto.
Qed.

Lemma Map_get_NoDup {V} (m : Map V) (k : string) (v : V) :
  NoDup (Map_keys m) → (k, v) ∈ m → Map_get m k = Some v.
Proof.
  unfold Map_keys. induction m as [| [k0 v0] m IH]; simpl.
  - intros _ H. by apply elem_of_nil in H.
  - intros [Hk0 Hnd]%NoDup_cons [[= -> ->] | Hin]%elem_of_cons.
    + by rewrite decide_True.
    + rewrite decide_False; [by apply IH |].
      intros ->. apply Hk0. by apply (list_elem_of_fmap_2 fst _ (k, v)).
Qed.

Lemma get_or_zero_elem (m : Map Qc) (k : string) :
  k ∈ Map_keys m → Map_get m k = Some (get_or_zero m k).
Proof.
  intros [v Hv]%Map_get_is_Some. unfold get_or_zero. by rewrite Hv.
Qed.

Lemma get_or_zero_keep_max (m : Map Qc) (k k' : string) (v : Qc) :
  get_or_zero (keep_max m k v) k'
  = if decide (k = k') then Math_max (get_or_zero m k) v else get_or_zero m k'.
Proof.
  unfold keep_max. unfold get_or_zero at 1. rewrite Map_get_set.
  by case_decide.
Qed.

Lemma elem_of_keys_keep_max (m : Map Qc) (k k' : string) (v : Qc) :
  k' ∈ Map_keys (keep_max m k v) ↔ k' = k ∨ k' ∈ Map_keys m.
Proof. apply elem_of_Map_keys_set. Qed.

Lemma values_of_cons (k0 : string) (v0 : Qc) (m : list (string * Qc)) (k : string) :
  values_of ((k0, v0) :: m) k
  = if decide (k0 = k) then v0 :: values_of m k else values_of m k.
Proof. unfold values_of. simpl. by case_decide. Qed.

Lemma values_of_app (m1 m2 : list (string * Qc)) (k : string) :
  values_of (m1 ++ m2) k = (values_of m1 k ++ values_of m2 k)%list.
Proof. apply omap_app. Qed.

Lemma elem_of_values_of (m : list (string * Qc)) (k : string) (v : Qc) :
  v ∈ values_of m k ↔ (k, v) ∈ m.
Proof.
  unfold values_of. rewrite list_elem_of_omap. split.
  - intros [[k0 v0] [Hin H]]. simpl in H. case_decide; by simplify_eq.
  - intros Hin. exists (k, v). split; [done |]. simpl. by rewrite decide_True.
Qed.

Lemma values_of_nil_iff (m : list (string * Qc)) (k : string) :
  values_of m k = [] ↔ k ∉ Map_keys m.
Proof.
  unfold Map_keys. induction m as [| [k0 v0] m IH].
  - split; [intros _; apply not_elem_of_nil | done].
  - rewrite values_of_cons, fmap_cons, not_elem_of_cons. simpl.
    case_decide; naive_solver.
Qed.

(** With one amount per key, the observations of a key are its amount. *)
Lemma values_of_NoDup (m : Map Qc) (k : string) :
  NoDup (Map_keys m) →
  values_of m k = match Map_get m k with Some v => [v] | None => [] end.
Proof.
  unfold Map_keys. induction m as [| [k0 v0] m IH]; [done |].
  rewrite fmap_cons. intros [Hk0 Hnd]%NoDup_cons.
  rewrite values_of_cons. simpl. case_decide as Hk.
  - subst k0. f_equal. by apply values_of_nil_iff.
  - by apply IH.
Qed.

(** ** The reconciliation merge *)

(** The loop that [mergeInto] and the extractors share: the amount of a key
    becomes the running maximum of what was there and what is observed. *)
Lemma fold_keep_max_get_or_zero (obs : list (string * Qc)) (m : Map Qc) (k : string) :
  get_or_zero (fold_left (λ m '(id, v), keep_max m id v) obs m) k
  = fold_left Math_max (values_of obs k) (get_or_zero m k).
Proof.
  revert m. induction obs as [| [k0 v0] obs IH]; intros m; [done |].
  cbn [fold_left]. rewrite IH, get_or_zero_keep_max, values_of_cons.
  case_decide; by subst.
Qed.

Lemma fold_keep_max_keys (obs : list (string * Qc)) (m : Map Qc) (k : string) :
  k ∈ Map_keys (fold_left (λ m '(id, v), keep_max m id v) obs m)
  ↔ k ∈ Map_keys m ∨ k ∈ Map_keys obs.
Proof.
  revert m. induction obs as [| [k0 v0] obs IH]; intros m; cbn [fold_left].
  - change (Map_keys (@nil (string * Qc))) with (@nil string).
    rewrite elem_of_nil. naive_solver.
  - rewrite IH, elem_of_keys_keep_max.
    change (Map_keys ((k0, v0) :: obs)) with (k0 :: Map_keys obs).
    rewrite elem_of_cons. naive_solver.
Qed.

Lemma fold_keep_max_NoDup (obs : list (string * Qc)) (m : Map Qc) :
  NoDup (Map_keys m) →
  NoDup (Map_keys (fold_left (λ m '(id, v), keep_max m id v) obs m)).
Proof.
  revert m. induction obs as [| [k0 v0] obs IH]; intros m Hm; simpl; [done |].
  apply IH. by apply NoDup_Map_keys_set.
Qed.

Lemma mergeInto_get_or_zero (target source : Map Qc) (k : string) :
  get_or_zero (mergeInto target source) k
  = fold_left Math_max (values_of source k) (get_or_zero target k).
Proof. apply fold_keep_max_get_or_zero. Qed.

Lemma mergeInto_keys (target source : Map Qc) (k : string) :
  k ∈ Map_keys (mergeInto target source) ↔ k ∈ Map_keys target ∨ k ∈ Map_keys source.
Proof. apply fold_keep_max_keys. Qed.

Lemma mergeInto_NoDup (target source : Map Qc) :
  NoDup (Map_keys target) → NoDup (Map_keys (mergeInto target source)).
Proof. apply fold_keep_max_NoDup. Qed.

(** Merging a list of sources into a target, one after the other. *)
Lemma merge_all_get_or_zero (sources : list (Map Qc)) (target : Map Qc) (k : string) :
  get_or_zero (fold_left mergeInto sources target) k
  = fold_left Math_max (flat_map (λ s, values_of s k) sources) (get_or_zero target k).
Proof.
  revert target. induction sources as [| s sources IH]; intros target; simpl; [done |].
  by rewrite IH, mergeInto_get_or_zero, fold_left_app.
Qed.

Lemma merge_all_keys (sources : list (Map Qc)) (target : Map Qc) (k : string) :
  k ∈ Map_keys (fold_left mergeInto sources target)
  ↔ k ∈ Map_keys target ∨ ∃ s, s ∈ sources ∧ k ∈ Map_keys s.
Proof.
  revert target. induction sources as [| s sources IH]; intros target; simpl.
  - setoid_rewrite elem_of_nil. naive_solver.
  - rewrite IH, mergeInto_keys. setoid_rewrite elem_of_cons. naive_solver.
Qed.

Lemma Map_get_by_keys (m1 m2 : Map Qc) (k : string) :
  (k ∈ Map_keys m1 ↔ k ∈ Map_keys m2) →
  get_or_zero m1 k = get_or_zero m2 k →
  Map_get m1 k = Map_get m2 k.
Proof.
  intros Hk Hv. destruct (decide (k ∈ Map_keys m1)) as [H1 | H1].
  - rewrite (get_or_zero_elem m1 k H1), Hv.
    symmetry. apply get_or_zero_elem. by apply Hk.
  - assert (k ∉ Map_keys m2) as H2 by (by rewrite <-Hk).
    apply Map_get_None in H1, H2. by rewrite H1, H2.
Qed.

Lemma merge_all_Permutation (sources sources' : list (Map Qc)) (target : Map Qc) :
  Permutation sources sources' →
  same_mapping (fold_left mergeInto sources target) (fold_left mergeInto sources' target).
Proof.
  intros Hp k. apply Map_get_by_keys.
  - rewrite !merge_all_keys. by setoid_rewrite Hp.
  - rewrite !merge_all_get_or_zero. apply fold_max_Permutation.
    by apply Permutation_flat_map.
Qed.

Lemma merge_season_fold (a b c d : Map Qc) :
  merge_season a b c d = fold_left mergeInto [a; b; c; d] [].
Proof. done. Qed.

Lemma Forall_Map_set {V} (P : string * V → Prop) (m : Map V) (k : string) (v : V) :
  Forall P m → P (k, v) → Forall P (Map_set m k v).
Proof.
  intros Hm Hkv. induction Hm as [| [k0 v0] m H0 Hm IH]; simpl.
  - by repeat constructor.
  - case_decide; subst; by constructor.
Qed.

Lemma keep_max_recorded (m : Map Qc) (k : string) (v : Qc) :
  recorded m → 0 < v → recorded (keep_max m k v).
Proof.
  intros [Hnd Hpos] Hv. split; [by apply NoDup_Map_keys_set |].
  apply Forall_Map_set; [done |]. simpl.
  eapply Qclt_le_trans; [exact Hv | apply Math_max_r].
Qed.

Lemma recorded_nil : recorded [].
Proof. split; constructor. Qed.

Lemma recorded_salary_mapping (m : Map Qc) : recorded m → salary_mapping m.
Proof.
  intros [Hnd Hpos]. split; [done |].
  eapply Forall_impl; [exact Hpos |]. intros kv. apply Qclt_le_weak.
Qed.

Lemma roster_step_recorded (m : Map Qc) (p : rosterPlayer) :
  recorded m → recorded (roster_step m p).
Proof.
  intros Hm. unfold roster_step. destruct (truthy_field (rp_id p)); [| done].
  case_decide; [by apply keep_max_recorded | done].
Qed.

Lemma auction_step_recorded (m : Map Qc) (a : auction) :
  recorded m → recorded (auction_step m a).
Proof.
  intros Hm. unfold auction_step. destruct (truthy_field (au_player a)); [| done].
  case_decide; [by apply keep_max_recorded | done].
Qed.

Lemma fold_left_recorded {A} (step : Map Qc → A → Map Qc) (l : list A) (m : Map Qc) :
  (∀ m a, recorded m → recorded (step m a)) → recorded m → recorded (fold_left step l m).
Proof.
  intros Hstep. revert m. induction l as [| a l IH]; intros m Hm; simpl; auto.
Qed.

Lemma bbid_step_recorded (m : Map Qc) (tx : txRecord) :
  recorded m → recorded (bbid_step m tx).
Proof.
  intros Hm. unfold bbid_step. destruct (truthy_field (tx_transaction tx)); [| done].
  case_decide; [done |]. case_decide as Hbid; [done |].
  apply fold_left_recorded; [| done].
  intros m' id Hm'. apply keep_max_recorded; [done |]. by apply Qcnot_le_lt.
Qed.

(** Every salary extractor builds a salary mapping with amounts above
    zero: a record without id, or with an amount that is missing, not a
    number, zero or negative, leaves no trace. *)
Lemma extractors_recorded (data : option body) :
  recorded (roster_salaries data) ∧ recorded (auction_salaries data)
  ∧ recorded (bbid_salaries data).
Proof.
  split_and!.
  - unfold roster_salaries. apply fold_left_recorded; [| apply recorded_nil].
    intros m f Hm. apply fold_left_recorded; [| done]. apply roster_step_recorded.
  - unfold auction_salaries. apply fold_left_recorded; [| apply recorded_nil].
    apply auction_step_recorded.
  - unfold bbid_salaries, bbid_salaries_of.
    apply fold_left_recorded; [| apply recorded_nil]. apply bbid_step_recorded.
Qed.

Lemma mergeInto_recorded (target source : Map Qc) :
  recorded target → Forall (λ kv, 0 < kv.2) source → recorded (mergeInto target source).
Proof.
  intros Ht Hs. unfold mergeInto. revert target Ht.
  induction Hs as [| [k v] source Hv Hs IH]; intros target Ht; simpl; [done |].
  apply IH. by apply keep_max_recorded.
Qed.

Lemma merge_season_recorded (w1 w14 au bb : Map Qc) :
  recorded w1 → recorded w14 → recorded au → recorded bb →
  recorded (merge_season w1 w14 au bb).
Proof.
  intros [_ H1] [_ H14] [_ Hau] [_ Hbb]. unfold merge_season.
  repeat (apply mergeInto_recorded; [| done]). apply recorded_nil.
Qed.

Lemma mergeInto_get (target source : Map Qc) (id : string) :
  NoDup (Map_keys source) →
  Forall (λ kv, 0 ≤ kv.2) target →
  id ∈ Map_keys target ∨ id ∈ Map_keys source →
  Map_get (mergeInto target source) id
  = Some (Math_max (get_or_zero target id) (get_or_zero source id)).
Proof.
  intros Hnd Hpos Hid.
  rewrite (get_or_zero_elem (mergeInto target source) id) by (by apply mergeInto_keys).
  f_equal. rewrite mergeInto_get_or_zero, (values_of_NoDup source id Hnd).
  unfold get_or_zero at 3. destruct (Map_get source id) as [v |] eqn:Hs; [done |].
  simpl. symmetry. apply Math_max_zero_r.
  destruct Hid as [Hid | Hid]; [| by apply Map_get_None in Hs].
  apply Map_get_is_Some in Hid as [v Hv]. unfold get_or_zero. rewrite Hv.
  apply Map_get_elem_of in Hv. rewrite Forall_forall in Hpos.
  by apply (Hpos (id, v)).
Qed.

(** C1. For maps of amounts as the data model has them (one entry per
    player in the source, no amount below zero in the target), the merge
    assigns to every player of the target or the source the larger of the
    two amounts, a missing one counting as 0; the keys of the result are
    those of the two maps; and the four salary maps of a season, whatever
    they hold, merged in any order of invocation give the same mapping: the
    same keys with the same amounts. *)
Theorem merge_order_independent :
  (∀ target source : Map Qc,
     NoDup (Map_keys source) →
     Forall (λ kv, 0 ≤ kv.2) target →
     ∀ id, id ∈ Map_keys target ∨ id ∈ Map_keys source →
       Map_get (mergeInto target source) id
       = Some (Math_max (get_or_zero target id) (get_or_zero source id)))
  ∧ (∀ (target source : Map Qc) id,
       id ∈ Map_keys (mergeInto target source)
       ↔ id ∈ Map_keys target ∨ id ∈ Map_keys source)
  ∧ (∀ w1 w14 au bb w1' w14' au' bb' : Map Qc,
       Permutation [w1; w14; au; bb] [w1'; w14'; au'; bb'] →
       same_mapping (merge_season w1 w14 au bb) (merge_season w1' w14' au' bb')).
Proof.
  split_and!.
  - intros target source Hnd Hpos id Hid. by apply mergeInto_get.
  - apply mergeInto_keys.
  - intros w1 w14 au bb w1' w14' au' bb' Hp.
    rewrite !merge_season_fold. by apply merge_all_Permutation.
Qed.

Lemma merge_order_independent_witness :
  Map_get (mergeInto [("13593", num 300000)]
                     [("13593", num 425000); ("14867", num 100000)]) "13593"
  = Some (Math_max (get_or_zero [("13593", num 300000)] "13593")
                   (get_or_zero [("13593", num 425000); ("14867", num 100000)] "13593"))
  ∧ same_mapping
      (merge_season [("1", num 5)] [("2", num 7)] [("1", num 9)] [("3", num 1)])
      (merge_season [("3", num 1)] [("1", num 9)] [("2", num 7)] [("1", num 5)]).
Proof.
  destruct merge_order_independent as (Hmax & _ & Hperm). split.
  - apply Hmax.
    + apply (bool_decide_unpack _). vm_compute. exact I.
    + apply (bool_decide_unpack _). vm_compute. exact I.
    + left. apply (bool_decide_unpack _). vm_compute. exact I.
  - apply Hperm. apply (Permutation_rev [_; _; _; _]).
Defined.

(** The amount a merge from the empty map gives is the largest observation,
    and some source holds it. *)
Lemma merge_all_upper (sources : list (Map Qc)) (src : Map Qc) (id : string) (v : Qc) :
  src ∈ sources → Map_get src id = Some v →
  ∃ m, Map_get (fold_left mergeInto sources []) id = Some m ∧ v ≤ m.
Proof.
  intros Hsrc Hv. exists (get_or_zero (fold_left mergeInto sources []) id). split.
  - apply get_or_zero_elem, merge_all_keys. right. exists src. split; [done |].
    apply Map_get_is_Some. by exists v.
  - rewrite merge_all_get_or_zero. apply fold_max_upper.
    apply list_elem_of_In, in_flat_map. exists src. split; [by apply list_elem_of_In |].
    apply list_elem_of_In, elem_of_values_of. by apply Map_get_elem_of.
Qed.

Lemma merge_all_attained (sources : list (Map Qc)) (id : string) (m : Qc) :
  Forall salary_mapping sources →
  Map_get (fold_left mergeInto sources []) id = Some m →
  ∃ src, src ∈ sources ∧ Map_get src id = Some m.
Proof.
  intros Hwf Hm. rewrite Forall_forall in Hwf.
  assert (id ∈ Map_keys (fold_left mergeInto sources [])) as Hk
    by (apply Map_get_is_Some; by exists m).
  assert (m = get_or_zero (fold_left mergeInto sources []) id) as Hgz
    by (unfold get_or_zero; by rewrite Hm).
  rewrite merge_all_get_or_zero in Hgz.
  change (get_or_zero [] id) with (Q2Qc 0) in Hgz.
  destruct (fold_max_attained (flat_map (λ s, values_of s id) sources) 0)
    as [H0 | Hin].
  - apply merge_all_keys in Hk as [Hk | (src & Hsrc & Hk)]; [by apply elem_of_nil in Hk |].
    exists src. split; [done |].
    apply Map_get_is_Some in Hk as [v Hv]. rewrite Hv. f_equal.
    destruct (merge_all_upper sources src id v Hsrc Hv) as (m' & Hm' & Hle).
    rewrite Hm in Hm'. injection Hm' as <-.
    rewrite Hgz, H0 in Hle |- *. apply Qcle_antisym; [done |].
    destruct (Hwf src Hsrc) as [_ Hpos]. rewrite Forall_forall in Hpos.
    apply (Hpos (id, v)). by apply Map_get_elem_of.
  - rewrite <-Hgz in Hin. apply list_elem_of_In, in_flat_map in Hin as (src & Hsrc & Hin).
    apply list_elem_of_In in Hsrc. exists src. split; [done |].
    apply Map_get_NoDup; [by apply Hwf |].
    by apply elem_of_values_of, list_elem_of_In.
Qed.

Lemma merge_all_absent (sources : list (Map Qc)) (src : Map Qc) (id : string) :
  Map_get (fold_left mergeInto sources []) id = None →
  src ∈ sources → Map_get src id = None.
Proof.
  intros Hm Hsrc. destruct (Map_get src id) as [v |] eqn:Hv; [| done].
  destruct (merge_all_upper sources src id v Hsrc Hv) as (m & Hm' & _). congruence.
Qed.

(** C2. After the merge of the four salary mappings of a season (each with
    one amount per player and no amount below zero, as the extractors build
    them), the amount of a player is at least the amount in every source
    that has the player, it is the amount some source has (so it is the
    largest of them), and a player missing from the merged map is missing
    from all four sources. *)
Theorem merge_monotone (w1 w14 au bb : Map Qc) :
  salary_mapping w1 → salary_mapping w14 → salary_mapping au → salary_mapping bb →
  let merged := merge_season w1 w14 au bb in
  (∀ src id v, src ∈ [w1; w14; au; bb] → Map_get src id = Some v →
     ∃ m, Map_get merged id = Some m ∧ v ≤ m)
  ∧ (∀ id m, Map_get merged id = Some m →
       ∃ src, src ∈ [w1; w14; au; bb] ∧ Map_get src id = Some m)
  ∧ (∀ id, Map_get merged id = None →
       ∀ src, src ∈ [w1; w14; au; bb] → Map_get src id = None).
Proof.
  intros H1 H14 Hau Hbb merged. subst merged. rewrite merge_season_fold.
  split_and!.
  - intros src id v. apply merge_all_upper.
  - intros id m. apply merge_all_attained.
    repeat (constructor; [assumption |]). constructor.
  - intros id Hm src. by apply merge_all_absent.
Qed.

(** The end-to-end scenario of the specification: Week 1 roster at
    1,000,000, auction at 1,500,000. *)
Lemma merge_monotone_witness :
  let w1 := [("7", num 1000000)] in
  let au := [("7", num 1500000)] in
  let merged := merge_season w1 [] au [] in
  (∀ src id v, src ∈ [w1; []; au; []] → Map_get src id = Some v →
     ∃ m, Map_get merged id = Some m ∧ v ≤ m)
  ∧ (∀ id m, Map_get merged id = Some m →
       ∃ src, src ∈ [w1; []; au; []] ∧ Map_get src id = Some m)
  ∧ (∀ id, Map_get merged id = None →
       ∀ src, src ∈ [w1; []; au; []] → Map_get src id = None).
Proof.
  apply merge_monotone; (split; apply (bool_decide_unpack _); vm_compute; exact I).
Defined.

Example merge_scenario :
  merge_season [("7", num 1000000)] [] [("7", num 1500000)] [] = [("7", num 1500000)].
Proof. vm_compute. reflexivity. Qed.

(** The order of invocation shows in the iteration order of the merged map,
    which is the order the ranking meets the players in. *)
Example merge_order_visible :
  merge_season [("1", num 5)] [("2", num 5)] [] [] = [("1", num 5); ("2", num 5)]
  ∧ merge_season [("2", num 5)] [("1", num 5)] [] [] = [("2", num 5); ("1", num 5)].
Proof. split; vm_compute; reflexivity. Qed.

(** ** Sorting *)

Lemma by_salary_desc_le (x y : entry) : by_salary_desc x y ≤ 0 ↔ salary y ≤ salary x.
Proof.
  unfold by_salary_desc.
  rewrite (Qcplus_le_mono_r (salary y) (salary x) (- salary x)).
  by rewrite Qcplus_opp_r.
Qed.

Lemma sort_insert_Permutation {A} (cmp : A → A → Qc) (x : A) (l : list A) :
  Permutation (sort_insert cmp x l) (x :: l).
Proof.
  induction l as [| y l IH]; simpl; [done |].
  case_decide; [done |]. rewrite IH. apply perm_swap.
Qed.

Lemma Array_sort_Permutation {A} (cmp : A → A → Qc) (l : list A) :
  Permutation (Array_sort cmp l) l.
Proof.
  induction l as [| x l IH]; simpl; [done |].
  rewrite sort_insert_Permutation. by constructor.
Qed.

Lemma sort_insert_non_increasing (x : entry) (l : list entry) :
  non_increasing l → non_increasing (sort_insert by_salary_desc x l).
Proof.
  unfold non_increasing. induction 1 as [| y l Hl IH Hy]; simpl.
  - repeat constructor.
  - case_decide as Hc.
    + apply by_salary_desc_le in Hc. constructor; [by constructor |].
      constructor; [done |].
      eapply Forall_impl; [exact Hy |]. intros z Hz. simpl in Hz.
      by eapply Qcle_trans.
    + constructor; [done |].
      rewrite sort_insert_Permutation. constructor; [| done].
      rewrite by_salary_desc_le in Hc. by apply Qclt_le_weak, Qcnot_le_lt.
Qed.

Lemma Array_sort_non_increasing (l : list entry) :
  non_increasing (Array_sort by_salary_desc l).
Proof.
  induction l as [| x l IH]; simpl; [constructor |].
  by apply sort_insert_non_increasing.
Qed.

(** Insertion passes only over entries of a larger amount, so it leaves the
    entries of each amount in the order they had. *)
Lemma of_amount_sort_insert (v : Qc) (x : entry) (l : list entry) :
  of_amount v (sort_insert by_salary_desc x l) = of_amount v (x :: l).
Proof.
  unfold of_amount. induction l as [| y l IH]; simpl; [done |].
  case_decide as Hc; [done |].
  rewrite by_salary_desc_le in Hc.
  rewrite !filter_cons, IH, !filter_cons.
  destruct (decide (salary y = v)) as [Hy | Hy];
    destruct (decide (salary x = v)) as [Hx | Hx]; try done.
  destruct Hc. rewrite Hx, Hy. apply Qcle_refl.
Qed.

Lemma of_amount_Array_sort (v : Qc) (l : list entry) :
  of_amount v (Array_sort by_salary_desc l) = of_amount v l.
Proof.
  induction l as [| x l IH]; simpl; [done |].
  rewrite of_amount_sort_insert. unfold of_amount in *.
  by rewrite !filter_cons, IH.
Qed.

Lemma non_increasing_head (x y : entry) (l : list entry) :
  non_increasing (x :: l) → y ∈ x :: l → salary y ≤ salary x.
Proof.
  intros H [-> | Hy]%elem_of_cons; [apply Qcle_refl |].
  apply StronglySorted_inv in H as [_ H]. rewrite Forall_forall in H. by apply H.
Qed.

Lemma of_amount_cons (v : Qc) (x : entry) (l : list entry) :
  of_amount v (x :: l) = if decide (salary x = v) then x :: of_amount v l else of_amount v l.
Proof. unfold of_amount. by rewrite filter_cons. Qed.

(** A list has one stable sorted arrangement: two non-increasing
    arrangements of the same entries that keep the entries of every amount
    in the same order are equal. *)
Lemma stable_sorted_unique (l1 l2 : list entry) :
  non_increasing l1 → non_increasing l2 → Permutation l1 l2 →
  (∀ v, of_amount v l1 = of_amount v l2) → l1 = l2.
Proof.
  revert l2. induction l1 as [| x l1 IH]; intros l2 H1 H2 Hp Hv.
  - by apply Permutation_nil in Hp.
  - destruct l2 as [| y l2]; [by apply Permutation_sym, Permutation_nil in Hp |].
    assert (salary x = salary y) as Hxy.
    { apply Qcle_antisym.
      - apply (non_increasing_head y x l2 H2). rewrite <-Hp. apply list_elem_of_here.
      - apply (non_increasing_head x y l1 H1). rewrite Hp. apply list_elem_of_here. }
    assert (x = y) as <-.
    { specialize (Hv (salary x)). rewrite !of_amount_cons in Hv.
      rewrite decide_True in Hv by done. rewrite decide_True in Hv by done.
      by injection Hv. }
    f_equal. apply IH.
    + by apply StronglySorted_inv in H1 as [? _].
    + by apply StronglySorted_inv in H2 as [? _].
    + by apply Permutation_cons_inv in Hp.
    + intros v. specialize (Hv v). rewrite !of_amount_cons in Hv.
      case_decide; [by injection Hv | done].
Qed.

(** So the model of [sort] does not depend on the algorithm of the engine:
    whatever stable sort it runs returns [Array_sort by_salary_desc l]. *)
Lemma Array_sort_unique (l sorted : list entry) :
  Permutation sorted l → non_increasing sorted →
  (∀ v, of_amount v sorted = of_amount v l) →
  sorted = Array_sort by_salary_desc l.
Proof.
  intros Hp Hs Hv. apply stable_sorted_unique.
  - done.
  - apply Array_sort_non_increasing.
  - by rewrite Array_sort_Permutation.
  - intros v. by rewrite of_amount_Array_sort.
Qed.

Lemma non_increasing_take (n : nat) (l : list entry) :
  non_increasing l → non_increasing (take n l).
Proof.
  unfold non_increasing. intros H. revert n.
  induction H as [| x l Hl IH Hx]; intros [| n]; simpl; try constructor.
  - apply IH.
  - eapply Forall_take in Hx. exact Hx.
Qed.

Lemma of_amount_take_prefix (v : Qc) (n : nat) (l : list entry) :
  of_amount v (take n l) `prefix_of` of_amount v l.
Proof.
  unfold of_amount. rewrite <-(take_drop n l) at 2. rewrite filter_app.
  by apply prefix_app_r.
Qed.

(** ** The ranking engine *)

Lemma qualifying_cons (pm : Map metadata) (id : string) (s : Qc)
    (rest : Map Qc) (pos : string) :
  qualifying pm ((id, s) :: rest) pos
  = match Map_get pm id with
    | Some meta =>
        if decide (position meta = pos)
        then {| name := meta_name meta; salary := s |} :: qualifying pm rest pos
        else qualifying pm rest pos
    | None => qualifying pm rest pos
    end.
Proof.
  unfold qualifying. simpl. destruct (Map_get pm id) as [meta |]; [| done].
  by case_decide.
Qed.

Lemma bucket_of_set (groups : Map (list entry)) (k pos : string) (b : list entry) :
  bucket_of (Map_set groups k b) pos = if decide (k = pos) then b else bucket_of groups pos.
Proof. unfold bucket_of. rewrite Map_get_set. by case_decide. Qed.

Lemma get_property_Own {A} (obj : Map A) (key : string) (a : A) :
  get_property obj key = Own a ↔ Map_get obj key = Some a.
Proof.
  unfold get_property. destruct (Map_get obj key); [naive_solver |].
  case_bool_decide; naive_solver.
Qed.

Lemma get_property_Undefined {A} (obj : Map A) (key : string) :
  get_property obj key = Undefined → key ∉ Map_keys obj.
Proof.
  unfold get_property. destruct (Map_get obj key) eqn:H; [done |].
  intros _. by apply Map_get_None.
Qed.

(** The grouping loop keeps the keys of [groups] and appends, to the bucket
    of every key, the qualifying entries in the order it meets them. *)
Lemma fill_groups_spec (pm : Map metadata) (entries : Map Qc)
    (groups groups' : Map (list entry)) :
  fill_groups pm entries groups = Ok groups' →
  Map_keys groups' = Map_keys groups
  ∧ ∀ pos, pos ∈ Map_keys groups →
           bucket_of groups' pos = (bucket_of groups pos ++ qualifying pm entries pos)%list.
Proof.
  revert groups. induction entries as [| [id s] rest IH]; intros groups;
    cbn [fill_groups].
  - intros [= <-]. split; [done |]. intros pos _. by rewrite app_nil_r.
  - destruct (Map_get pm id) as [meta |] eqn:Hmeta.
    + destruct (get_property groups (position meta)) as [bucket | |] eqn:Hprop.
      * intros H. apply IH in H as [Hkeys Hb].
        apply get_property_Own in Hprop.
        assert (position meta ∈ Map_keys groups) as Hin
          by (apply Map_get_is_Some; by exists bucket).
        rewrite Map_keys_set, decide_True in Hkeys by done.
        split; [done |]. intros pos Hpos.
        rewrite Hb by (by rewrite Map_keys_set, decide_True).
        rewrite bucket_of_set, qualifying_cons, Hmeta.
        case_decide as Hp; [| done].
        subst pos. unfold bucket_of. rewrite Hprop. simpl.
        by rewrite <-app_assoc.
      * done.
      * intros H. apply IH in H as [Hkeys Hb]. split; [done |].
        intros pos Hpos. rewrite Hb, qualifying_cons, Hmeta by done.
        rewrite decide_False; [done |]. intros <-.
        by apply get_property_Undefined in Hprop.
    + intros H. apply IH in H as [Hkeys Hb]. split; [done |].
      intros pos Hpos. by rewrite Hb, qualifying_cons, Hmeta.
Qed.

(** The grouping loop fails only on a position that names an inherited
    property. *)
Lemma fill_groups_total (pm : Map metadata) (entries : Map Qc)
    (groups : Map (list entry)) :
  plain_positions pm → ∃ groups', fill_groups pm entries groups = Ok groups'.
Proof.
  intros Hplain. revert groups.
  induction entries as [| [id s] rest IH]; intros groups; simpl; [by eexists |].
  destruct (Map_get pm id) as [meta |] eqn:Hmeta; [| apply IH].
  unfold get_property. destruct (Map_get groups (position meta)); [apply IH |].
  rewrite bool_decide_eq_false_2; [apply IH |]. by eapply Hplain.
Qed.

Lemma empty_groups_keys : Map_keys empty_groups = POSITIONS.
Proof. reflexivity. Qed.

Lemma bucket_of_empty_groups (pos : string) : bucket_of empty_groups pos = [].
Proof.
  unfold bucket_of, empty_groups. simpl.
  repeat (case_decide; [done |]). done.
Qed.

Lemma rank_groups_keys (groups : Map (list entry)) :
  Map_keys (rank_groups groups) = POSITIONS.
Proof. reflexivity. Qed.

Lemma rank_groups_get (groups : Map (list entry)) (pos : string) :
  pos ∈ POSITIONS →
  Map_get (rank_groups groups) pos
  = Some (take TOP_N (Array_sort by_salary_desc (bucket_of groups pos))).
Proof.
  unfold POSITIONS. rewrite !elem_of_cons, elem_of_nil.
  intros [-> | [-> | [-> | [-> | [-> | [-> | []]]]]]]; reflexivity.
Qed.

Lemma rank_groups_get_inv (groups : Map (list entry)) (pos : string) (b : list entry) :
  Map_get (rank_groups groups) pos = Some b →
  pos ∈ POSITIONS ∧ b = take TOP_N (Array_sort by_salary_desc (bucket_of groups pos)).
Proof.
  intros H.
  assert (pos ∈ POSITIONS) as Hpos.
  { rewrite <-(rank_groups_keys groups). apply Map_get_is_Some. by exists b. }
  split; [done |]. rewrite rank_groups_get in H by done. by injection H.
Qed.

(** What [rankByPosition] returns, when it returns: for each tracked
    position the first [TOP_N] of the sorted qualifying entries. *)
Lemma rankByPosition_spec (sm : Map Qc) (pm : Map metadata) (ranked : Map (list entry)) :
  rankByPosition sm pm = Ok ranked →
  Map_keys ranked = POSITIONS
  ∧ ∀ pos, pos ∈ POSITIONS →
      Map_get ranked pos
      = Some (take TOP_N (Array_sort by_salary_desc (qualifying pm sm pos))).
Proof.
  unfold rankByPosition.
  destruct (fill_groups pm sm empty_groups) as [groups |] eqn:Hfill; [| done].
  intros [= <-]. apply fill_groups_spec in Hfill as [_ Hb].
  split; [apply rank_groups_keys |]. intros pos Hpos.
  rewrite rank_groups_get by done.
  by rewrite Hb, bucket_of_empty_groups by (by rewrite empty_groups_keys).
Qed.

Lemma rankByPosition_total (sm : Map Qc) (pm : Map metadata) :
  plain_positions pm → ∃ ranked, rankByPosition sm pm = Ok ranked.
Proof.
  intros Hplain. unfold rankByPosition.
  destruct (fill_groups_total pm sm empty_groups Hplain) as [groups ->].
  by eexists.
Qed.

Lemma tracked_positions_plain (pm : Map metadata) :
  tracked_positions pm → plain_positions pm.
Proof.
  intros Ht id meta Hm Hin. specialize (Ht id meta Hm).
  unfold POSITIONS in Ht. rewrite !elem_of_cons, elem_of_nil in Ht.
  destruct Ht as [H | [H | [H | [H | [H | [H | []]]]]]]; rewrite H in Hin;
    by apply (bool_decide_pack _) in Hin.
Qed.

(** C3. In the output of the ranking, every position bucket has at most
    [TOP_N] = 30 entries, is sorted from the largest amount down, and keeps
    the entries of equal amount in the order the grouping loop met them.
    The bucket is the head of a sorted arrangement of all the qualifying
    entries of its position. *)
Theorem ranking_bounded_sorted_stable (sm : Map Qc) (pm : Map metadata)
    (ranked : Map (list entry)) (pos : string) (bucket : list entry) :
  rankByPosition sm pm = Ok ranked →
  Map_get ranked pos = Some bucket →
  (length bucket ≤ 30)%nat
  ∧ non_increasing bucket
  ∧ (∀ v, of_amount v bucket `prefix_of` of_amount v (qualifying pm sm pos))
  ∧ ∃ rest, Permutation (bucket ++ rest) (qualifying pm sm pos)
            ∧ non_increasing (bucket ++ rest)
            ∧ (rest ≠ [] → length bucket = 30%nat).
Proof.
  intros Hr Hb. apply rankByPosition_spec in Hr as [Hkeys Hget].
  assert (pos ∈ POSITIONS) as Hpos.
  { rewrite <-Hkeys. apply Map_get_is_Some. by exists bucket. }
  rewrite Hget in Hb by done. injection Hb as <-. split_and!.
  - rewrite length_take. apply Nat.le_min_l.
  - apply non_increasing_take, Array_sort_non_increasing.
  - intros v. rewrite <-(of_amount_Array_sort v (qualifying pm sm pos)).
    apply of_amount_take_prefix.
  - exists (drop TOP_N (Array_sort by_salary_desc (qualifying pm sm pos))).
    rewrite take_drop. split_and!.
    + apply Array_sort_Permutation.
    + apply Array_sort_non_increasing.
    + intros Hrest. rewrite length_take. unfold TOP_N in *.
      destruct (decide (30 ≤ length (Array_sort by_salary_desc (qualifying pm sm pos))))%nat
        as [Hle | Hgt]; [lia |].
      destruct Hrest. apply drop_ge. lia.
Qed.

Lemma ranking_bounded_sorted_stable_witness :
  let a := {| name := "A"; salary := num 5 |} in
  let b := {| name := "B"; salary := num 7 |} in
  let c := {| name := "C"; salary := num 5 |} in
  let playerMap :=
    [("1", {| meta_name := "A"; position := "QB" |});
     ("2", {| meta_name := "B"; position := "qb" |});
     ("3", {| meta_name := "B"; position := "QB" |});
     ("4", {| meta_name := "C"; position := "QB" |})] in
  let salaryMap := [("1", num 5); ("2", num 9); ("3", num 7); ("4", num 5)] in
  (length [b; a; c] ≤ 30)%nat
  ∧ non_increasing [b; a; c]
  ∧ (∀ v, of_amount v [b; a; c]
          `prefix_of` of_amount v (qualifying playerMap salaryMap "QB"))
  ∧ ∃ rest, Permutation ([b; a; c] ++ rest) (qualifying playerMap salaryMap "QB")
            ∧ non_increasing ([b; a; c] ++ rest)
            ∧ (rest ≠ [] → length [b; a; c] = 30%nat).
Proof.
  intros a b c playerMap salaryMap.
  apply (ranking_bounded_sorted_stable salaryMap playerMap
           [("QB", [b; a; c]); ("RB", []); ("WR", []); ("TE", []); ("PK", []);
            ("Def", [])]).
  - vm_compute. reflexivity.
  - reflexivity.
Defined.

Lemma qualifying_nil (sm : Map Qc) (pm : Map metadata) (pos : string) :
  (∀ id salary meta, (id, salary) ∈ sm → Map_get pm id = Some meta →
                     position meta ≠ pos) →
  qualifying pm sm pos = [].
Proof.
  induction sm as [| [id s] rest IH]; intros H; [done |].
  rewrite qualifying_cons.
  assert (qualifying pm rest pos = []) as ->.
  { apply IH. intros id' s' meta Hin. apply (H id' s' meta).
    by apply list_elem_of_further. }
  destruct (Map_get pm id) as [meta |] eqn:Hmeta; [| done].
  rewrite decide_False; [done |].
  apply (H id s meta); [apply list_elem_of_here | done].
Qed.

(** C4. The ranking returns on every metadata mapping that the data model
    admits (and on any whose positions name nothing inherited from
    [Object.prototype]); what it returns has exactly the tracked positions
    as keys, and a position without qualifying players holds the empty
    sequence. *)
Theorem empty_buckets_present (sm : Map Qc) (pm : Map metadata) :
  (plain_positions pm → ∃ ranked, rankByPosition sm pm = Ok ranked)
  ∧ ∀ ranked, rankByPosition sm pm = Ok ranked →
      Map_keys ranked = POSITIONS
      ∧ ∀ pos, pos ∈ POSITIONS →
          is_Some (Map_get ranked pos)
          ∧ ((∀ id salary meta, (id, salary) ∈ sm → Map_get pm id = Some meta →
                                position meta ≠ pos) →
             Map_get ranked pos = Some []).
Proof.
  split; [apply rankByPosition_total |].
  intros ranked [Hkeys Hget]%rankByPosition_spec. split; [done |].
  intros pos Hpos. rewrite Hget by done. split; [by eexists |].
  intros Hnone. by rewrite qualifying_nil.
Qed.

Lemma empty_buckets_present_witness :
  ∃ ranked,
    rankByPosition [("1", num 5)] [("1", {| meta_name := "A"; position := "QB" |})]
    = Ok ranked
    ∧ Map_keys ranked = POSITIONS
    ∧ Map_get ranked "TE" = Some [].
Proof.
  destruct (empty_buckets_present
              [("1", num 5)] [("1", {| meta_name := "A"; position := "QB" |})])
    as [Htotal Hspec].
  destruct Htotal as [ranked Hr].
  { intros id meta. simpl. case_decide; [| done].
    intros [= <-]. simpl. apply (bool_decide_unpack _). vm_compute. exact I. }
  exists ranked. split; [done |].
  destruct (Hspec ranked Hr) as [Hkeys Hpos]. split; [done |].
  apply Hpos.
  - apply (bool_decide_unpack _). vm_compute. exact I.
  - intros id salary meta _. simpl. case_decide; [| done].
    by intros [= <-].
Defined.

(** ** Position normalization *)

Lemma upper_char_not_lower (c : ascii) : is_lower (upper_char c) = false.
Proof. destruct c as [[] [] [] [] [] [] [] []]; reflexivity. Qed.

Lemma toUpperCase_no_lower (s : string) :
  forallb (λ c, negb (is_lower c)) (list_ascii_of_string (toUpperCase s)) = true.
Proof.
  induction s as [| c s IH]; simpl; [done |].
  by rewrite upper_char_not_lower, IH.
Qed.

(** The key looked up in the object literal of [normalizePosition] is never
    a name inherited from [Object.prototype]. *)
Lemma toUpperCase_not_inherited (s : string) :
  toUpperCase s ∉ Object_prototype_names.
Proof.
  intros Hin. pose proof (toUpperCase_no_lower s) as Hno.
  unfold Object_prototype_names in Hin. rewrite !elem_of_cons, elem_of_nil in Hin.
  repeat (destruct Hin as [Hin | Hin]; [rewrite Hin in Hno; discriminate Hno |]).
  done.
Qed.

Lemma excluded_not_recognized (d : string) :
  d ∈ EXCLUDED_POSITIONS → Map_get recognized_positions (toUpperCase d) = None.
Proof.
  unfold EXCLUDED_POSITIONS. rewrite !elem_of_cons, elem_of_nil.
  intros H. repeat (destruct H as [-> | H]; [reflexivity |]). done.
Qed.

(** [normalizePosition] is the table of recognized codes read at the upper
    case of its argument. *)
Lemma normalizePosition_recognized (s : string) :
  normalizePosition (Some s) = Map_get recognized_positions (toUpperCase s).
Proof.
  unfold normalizePosition. destruct s as [| c s]; [reflexivity |].
  cbn [truthy_field]. case_bool_decide as Hex.
  - symmetry. by apply excluded_not_recognized.
  - generalize (toUpperCase (String c s)). intros u.
    unfold recognized_positions, position_map. cbn [Map_get].
    repeat (case_decide; try congruence).
Qed.

Lemma normalizePosition_closed (x : option string) (p : string) :
  normalizePosition x = Some p → p ∈ POSITIONS.
Proof.
  destruct x as [s |]; [| done]. rewrite normalizePosition_recognized.
  generalize (toUpperCase s). intros u.
  unfold recognized_positions. cbn [Map_get].
  repeat (case_decide; [intros [= <-]; apply (bool_decide_unpack _); reflexivity |]).
  done.
Qed.

(** C7. Position normalization reads its argument without regard to letter
    case: [k] gives [PK], [DEF] gives [Def], the four codes QB, RB, WR and TE
    come back in upper case; every spelling of a deny-listed code gives
    null, as does every string outside the recognized codes; the result is
    null or one of the six tracked positions. *)
Theorem normalizePosition_case_insensitive_closed :
  normalizePosition (Some "k") = Some "PK"
  ∧ normalizePosition (Some "DEF") = Some "Def"
  ∧ normalizePosition (Some "CB") = None
  ∧ normalizePosition (Some "XYZ") = None
  ∧ (∀ s s', toUpperCase s = toUpperCase s' →
             normalizePosition (Some s) = normalizePosition (Some s'))
  ∧ (∀ s p, p ∈ ["QB"; "RB"; "WR"; "TE"] → toUpperCase s = p →
            normalizePosition (Some s) = Some p)
  ∧ (∀ d s, d ∈ EXCLUDED_POSITIONS → toUpperCase s = toUpperCase d →
            normalizePosition (Some s) = None)
  ∧ (∀ s, toUpperCase s ∉ ["QB"; "RB"; "WR"; "TE"; "PK"; "K"; "DEF"] →
          normalizePosition (Some s) = None)
  ∧ (∀ x, normalizePosition x = None
          ∨ ∃ p, normalizePosition x = Some p ∧ p ∈ POSITIONS).
Proof.
  split_and!; try reflexivity.
  - intros s s' H. by rewrite !normalizePosition_recognized, H.
  - intros s p Hp <-. rewrite normalizePosition_recognized.
    rewrite !elem_of_cons, elem_of_nil in Hp.
    destruct Hp as [-> | [-> | [-> | [-> | []]]]]; reflexivity.
  - intros d s Hd Hs. rewrite normalizePosition_recognized, Hs.
    by apply excluded_not_recognized.
  - intros s Hs. rewrite normalizePosition_recognized.
    destruct (Map_get recognized_positions (toUpperCase s)) as [p |] eqn:Hp; [| done].
    destruct Hs. change (toUpperCase s ∈ Map_keys recognized_positions).
    apply Map_get_is_Some. by exists p.
  - intros x. destruct (normalizePosition x) as [p |] eqn:Hp; [| by left].
    right. exists p. split; [done |]. by eapply normalizePosition_closed.
Qed.

Lemma normalizePosition_case_insensitive_closed_witness :
  normalizePosition (Some "Def") = normalizePosition (Some "dEF")
  ∧ normalizePosition (Some "wr") = Some "WR"
  ∧ normalizePosition (Some "tmWR") = None
  ∧ normalizePosition (Some "Flex") = None.
Proof.
  destruct normalizePosition_case_insensitive_closed
    as (_ & _ & _ & _ & Hcase & Hpass & Hdeny & Hother & _).
  split_and!.
  - by apply Hcase.
  - apply Hpass; [| reflexivity]. apply (bool_decide_unpack _). reflexivity.
  - apply (Hdeny "TMWR"); [| reflexivity]. apply (bool_decide_unpack _). reflexivity.
  - apply Hother. apply (bool_decide_unpack _). reflexivity.
Defined.

(** ** Name formatting *)

Lemma before_comma_None (s : string) :
  contains_char "," s = false → before_comma s = None.
Proof.
  induction s as [| c s IH]; simpl; [done |].
  destruct (Ascii.eqb c ","); simpl; [done |]. intros H. by rewrite IH.
Qed.

(** C6. ["Smith, John"] becomes ["John Smith"]; a name without a comma
    comes back as it is; a null, missing or empty name becomes
    ["Unknown"]. *)
Theorem formatName_round_trip :
  formatName (Some "Smith, John") = "John Smith"
  ∧ formatName (Some "Buffalo Bills") = "Buffalo Bills"
  ∧ (∀ s, s ≠ "" → contains_char "," s = false → formatName (Some s) = s)
  ∧ formatName None = "Unknown"
  ∧ formatName (Some "") = "Unknown".
Proof.
  split_and!; try reflexivity.
  intros s Hs Hno. unfold formatName, match_name.
  destruct s as [| c s]; [done |]. cbn [truthy_field].
  by rewrite before_comma_None.
Qed.

Lemma formatName_round_trip_witness :
  formatName (Some "Kansas City Chiefs") = "Kansas City Chiefs".
Proof.
  destruct formatName_round_trip as (_ & _ & Hplain & _).
  apply Hplain; [discriminate | reflexivity].
Defined.

(** ** The metadata extractor *)

Lemma metadata_step_tracked (pm : Map metadata) (p : playerRecord) :
  tracked_positions pm → tracked_positions (metadata_step pm p).
Proof.
  intros Hpm. unfold metadata_step.
  destruct (truthy_field (pl_id p)) as [id |]; [| done].
  destruct (normalizePosition (pl_position p)) as [pos |] eqn:Hpos; [| done].
  destruct (truthy_field (Some pos)) as [pos' |] eqn:Ht; [| done].
  assert (pos' = pos) as -> by (destruct pos; by simplify_eq/=).
  intros id' meta. rewrite Map_get_set. case_decide; [| apply Hpm].
  intros [= <-]. simpl. by eapply normalizePosition_closed.
Qed.

Lemma player_metadata_of_tracked (players : list playerRecord) :
  tracked_positions (player_metadata_of players).
Proof.
  unfold player_metadata_of.
  assert (tracked_positions []) as H by done. revert H.
  generalize (@nil (string * metadata)).
  induction players as [| p players IH]; intros pm Hpm; simpl; [done |].
  by apply IH, metadata_step_tracked.
Qed.

Lemma elem_of_qualifying (pm : Map metadata) (sm : Map Qc) (id : string)
    (s : Qc) (meta : metadata) :
  (id, s) ∈ sm → Map_get pm id = Some meta →
  {| name := meta_name meta; salary := s |} ∈ qualifying pm sm (position meta).
Proof.
  intros Hin Hmeta. unfold qualifying. apply list_elem_of_omap.
  exists (id, s). split; [done |]. simpl. rewrite Hmeta. by rewrite decide_True.
Qed.

(** With tracked positions, the qualifying lists of the six positions share
    out the salaried players that have metadata. *)
Lemma qualifying_count (pm : Map metadata) (sm : list (string * Qc)) :
  tracked_positions pm →
  sum_list ((λ pos, length (qualifying pm sm pos)) <$> POSITIONS)
  = length (filter (λ kv, is_Some (Map_get pm kv.1)) sm).
Proof.
  intros Ht. induction sm as [| [pid s] rest IH]; [done |].
  rewrite (filter_cons (λ kv : string * Qc, is_Some (Map_get pm kv.1))).
  cbn [fst]. unfold POSITIONS in *. cbn [fmap list_fmap sum_list] in *.
  rewrite !qualifying_cons.
  destruct (Map_get pm pid) as [meta |] eqn:Hmeta.
  - destruct (decide (is_Some (Some meta))) as [_ | Hn]; [| destruct Hn; by eexists].
    cbn [length]. rewrite <-IH.
    specialize (Ht pid meta Hmeta). unfold POSITIONS in Ht.
    rewrite !elem_of_cons, elem_of_nil in Ht.
    destruct Ht as [H | [H | [H | [H | [H | [H | []]]]]]]; rewrite H;
      repeat (case_decide; try congruence); cbn [length]; unfold id; lia.
  - destruct (decide (is_Some (@None metadata))) as [[? ?] | _]; [done |]. exact IH.
Qed.

(** C10. Every entry of the metadata map that the extractor builds has one
    of the six tracked positions.  So in the grouping loop of the ranking
    the bucket of a player with metadata is always there (the test for an
    untracked bucket never skips and [push] never fails), every salaried
    player with metadata is put in the bucket of its position, and the
    buckets hold as many entries as there are salaried players with
    metadata: within the loop a player is left out only for want of
    metadata. *)
Theorem metadata_positions_tracked (players : list playerRecord) (sm : Map Qc) :
  let pm := player_metadata_of players in
  tracked_positions pm
  ∧ (∀ id meta (groups : Map (list entry)),
       Map_get pm id = Some meta → Map_keys groups = POSITIONS →
       ∃ bucket, get_property groups (position meta) = Own bucket)
  ∧ ∃ groups,
      fill_groups pm sm empty_groups = Ok groups
      ∧ rankByPosition sm pm = Ok (rank_groups groups)
      ∧ Map_keys groups = POSITIONS
      ∧ (∀ id salary meta,
           (id, salary) ∈ sm → Map_get pm id = Some meta →
           position meta ∈ POSITIONS
           ∧ {| name := meta_name meta; salary := salary |}
               ∈ bucket_of groups (position meta))
      ∧ sum_list ((λ pos, length (bucket_of groups pos)) <$> POSITIONS)
        = length (filter (λ kv, is_Some (Map_get pm kv.1)) sm).
Proof.
  intros pm. pose proof (player_metadata_of_tracked players) as Ht.
  fold pm in Ht. split_and!; [done | |].
  - intros id meta groups Hmeta Hkeys.
    assert (is_Some (Map_get groups (position meta))) as [bucket Hb].
    { apply Map_get_is_Some. rewrite Hkeys. by apply (Ht id). }
    exists bucket. by apply get_property_Own.
  - destruct (fill_groups_total pm sm empty_groups (tracked_positions_plain pm Ht))
      as [groups Hfill].
    exists groups. unfold rankByPosition. rewrite Hfill.
    apply fill_groups_spec in Hfill as [Hkeys Hb]. rewrite empty_groups_keys in *.
    split_and!; try done.
    + intros id salary meta Hin Hmeta.
      assert (position meta ∈ POSITIONS) as Hpos by (by apply (Ht id)).
      split; [done |]. rewrite Hb, bucket_of_empty_groups by done.
      by apply (elem_of_qualifying pm sm id).
    + etrans; [| exact (qualifying_count pm sm Ht)]. f_equal.
      apply list_fmap_ext. intros i pos Hpos%list_elem_of_lookup_2.
      by rewrite Hb, bucket_of_empty_groups.
Qed.

Lemma metadata_positions_tracked_witness :
  ∃ bucket, get_property empty_groups "QB" = Own bucket.
Proof.
  destruct (metadata_positions_tracked
              [ {| pl_id := Some "1"; pl_position := Some "qb";
                   pl_name := Some "Allen, Josh" |};
                {| pl_id := Some "2"; pl_position := Some "CB";
                   pl_name := Some "Gilmore, Stephon" |} ]
              [("1", num 5); ("2", num 3)]) as (_ & Hown & _).
  apply (Hown "1" {| meta_name := "Josh Allen"; position := "QB" |} empty_groups);
    reflexivity.
Defined.

(** ** The waiver extractor *)










(** ** The fetch client *)

Lemma after_after (w : world) (n n' : nat) (evs evs' : list event) :
  after (after w n evs) n' evs' = after w (n + n') (evs ++ evs').
Proof. unfold after. simpl. f_equal; [lia | by rewrite <-app_assoc]. Qed.

Lemma record_after (w : world) (e : event) : record e w = after w 0 [e].
Proof. unfold record, after. f_equal. lia. Qed.

Lemma attempt_once_settle (rt : runtime) (url : string) (w : world) :
  attempt_once rt url w
  = (match settle rt (net rt (requests w)) with
     | Succeeds data => Ok data
     | Fails message => Throw message
     end, after w 1 [Fetch url]).
Proof.
  unfold attempt_once, mbind, M_bind, fetch, settle, after.
  rewrite Nat.add_1_r.
  destruct (net rt (requests w)) as [m | r]; [done |].
  destruct (response_ok r); simpl; [| done].
  unfold response_json. destruct (content r) as [m | data]; [done |].
  unfold mbind, M_bind, mret, M_ret.
  destruct (error data) as [e |]; [| done]. by destruct (truthy e).
Qed.

Lemma fetchJson_loop_cons (rt : runtime) (url : string) (attempt : N)
    (rest : list N) (w : world) :
  fetchJson_loop rt url (attempt :: rest) w
  = match settle rt (net rt (requests w)) with
    | Succeeds data => (Ok (Some data), after w 1 [Fetch url])
    | Fails message =>
        if decide (attempt = MAX_RETRIES)
        then (Throw (exhausted_message url message), after w 1 [Fetch url])
        else fetchJson_loop rt url rest
               (after w 1 [Fetch url; retry_warning attempt message;
                           Sleep (RETRY_BACKOFF_MS * attempt)])
    end.
Proof.
  cbn [fetchJson_loop]. unfold try_catch, mbind, M_bind.
  rewrite attempt_once_settle.
  destruct (settle rt (net rt (requests w))) as [data | message]; [done |].
  case_decide; [done |].
  unfold console_warn, delay, emit. rewrite !record_after, !after_after.
  reflexivity.
Qed.

Lemma attempt_numbers_eq : attempt_numbers = [1; 2; 3]%N.
Proof. reflexivity. Qed.

(** The four ways a call of [fetchJson] can go, by what the next three
    requests settle to. *)
Lemma fetchJson_attempts (rt : runtime) (url : string) (w : world) :
  let answer k := settle rt (net rt (requests w + k)) in
  (∀ data, answer 0%nat = Succeeds data →
     fetchJson rt url w
     = (Ok (Some data), after w 1 [Fetch url; Returned url]))
  ∧ (∀ m1 data, answer 0%nat = Fails m1 → answer 1%nat = Succeeds data →
       fetchJson rt url w
       = (Ok (Some data),
          after w 2 [Fetch url; retry_warning 1 m1; Sleep (RETRY_BACKOFF_MS * 1);
                     Fetch url; Returned url]))
  ∧ (∀ m1 m2 data,
       answer 0%nat = Fails m1 → answer 1%nat = Fails m2 → answer 2%nat = Succeeds data →
       fetchJson rt url w
       = (Ok (Some data),
          after w 3 [Fetch url; retry_warning 1 m1; Sleep (RETRY_BACKOFF_MS * 1);
                     Fetch url; retry_warning 2 m2; Sleep (RETRY_BACKOFF_MS * 2);
                     Fetch url; Returned url]))
  ∧ (∀ m1 m2 m3,
       answer 0%nat = Fails m1 → answer 1%nat = Fails m2 → answer 2%nat = Fails m3 →
       fetchJson rt url w
       = (Throw (exhausted_message url m3),
          after w 3 [Fetch url; retry_warning 1 m1; Sleep (RETRY_BACKOFF_MS * 1);
                     Fetch url; retry_warning 2 m2; Sleep (RETRY_BACKOFF_MS * 2);
                     Fetch url; Exhausted url (exhausted_message url m3)])).
Proof.
  intros answer. subst answer. cbn beta.
  split_and!.
  - intros data H0. rewrite Nat.add_0_r in H0.
    unfold fetchJson. rewrite attempt_numbers_eq, fetchJson_loop_cons, H0.
    by rewrite record_after, after_after.
  - intros m1 data H0 H1. rewrite Nat.add_0_r in H0.
    unfold fetchJson. rewrite attempt_numbers_eq, fetchJson_loop_cons, H0.
    rewrite decide_False by done.
    rewrite fetchJson_loop_cons. cbn [after requests]. rewrite H1.
    by rewrite record_after, !after_after.
  - intros m1 m2 data H0 H1 H2. rewrite Nat.add_0_r in H0.
    unfold fetchJson. rewrite attempt_numbers_eq, fetchJson_loop_cons, H0.
    rewrite decide_False by done.
    rewrite fetchJson_loop_cons. cbn [after requests]. rewrite H1.
    rewrite decide_False by done.
    rewrite fetchJson_loop_cons. cbn [after requests].
    replace (requests w + 1 + 1)%nat with (requests w + 2)%nat by lia. rewrite H2.
    by rewrite record_after, !after_after.
  - intros m1 m2 m3 H0 H1 H2. rewrite Nat.add_0_r in H0.
    unfold fetchJson. rewrite attempt_numbers_eq, fetchJson_loop_cons, H0.
    rewrite decide_False by done.
    rewrite fetchJson_loop_cons. cbn [after requests]. rewrite H1.
    rewrite decide_False by done.
    rewrite fetchJson_loop_cons. cbn [after requests].
    replace (requests w + 1 + 1)%nat with (requests w + 2)%nat by lia. rewrite H2.
    rewrite decide_True by done.
    by rewrite record_after, !after_after.
Qed.

(** C8, as the code has it.  [fetchJson] makes at most three attempts.  An
    attempt fails on a transport failure, on a status outside 200-299, and
    on a body whose [error] member is truthy (a body whose [error] member is
    null, false, 0 or the empty string is a success).  After the failure of
    attempt [k], for [k] = 1, 2, it warns, waits [k] times
    [RETRY_BACKOFF_MS] and tries again; after the failure of the third it
    throws an error that carries the URL and the message of that last
    failure; an attempt that succeeds returns the parsed body at once. *)
Theorem fetch_retry_contract (rt : runtime) (url : string) (w : world) :
  let answer k := settle rt (net rt (requests w + k)) in
  (* what makes an attempt fail *)
  (∀ message, settle rt (NetworkError message) = Fails message)
  ∧ (∀ r, response_ok r = false →
          settle rt (Http r)
          = Fails ("HTTP " +:+ pretty (status r) +:+ ": " +:+ statusText r))
  ∧ (∀ r data e, response_ok r = true → content r = Parsed data →
                 error data = Some e → truthy e = true →
                 settle rt (Http r) = Fails ("MFL error: " +:+ JSON_stringify rt e))
  ∧ (∀ r data, response_ok r = true → content r = Parsed data →
               match error data with Some e => truthy e = false | None => True end →
               settle rt (Http r) = Succeeds data)
  (* at least one request, at most three *)
  ∧ (requests w < requests (fetchJson rt url w).2 ≤ requests w + 3)%nat
  (* the attempts *)
  ∧ (∀ data, answer 0%nat = Succeeds data →
       fetchJson rt url w
       = (Ok (Some data), after w 1 [Fetch url; Returned url]))
  ∧ (∀ m1 data, answer 0%nat = Fails m1 → answer 1%nat = Succeeds data →
       fetchJson rt url w
       = (Ok (Some data),
          after w 2 [Fetch url; retry_warning 1 m1; Sleep (RETRY_BACKOFF_MS * 1);
                     Fetch url; Returned url]))
  ∧ (∀ m1 m2 data,
       answer 0%nat = Fails m1 → answer 1%nat = Fails m2 → answer 2%nat = Succeeds data →
       fetchJson rt url w
       = (Ok (Some data),
          after w 3 [Fetch url; retry_warning 1 m1; Sleep (RETRY_BACKOFF_MS * 1);
                     Fetch url; retry_warning 2 m2; Sleep (RETRY_BACKOFF_MS * 2);
                     Fetch url; Returned url]))
  ∧ (∀ m1 m2 m3,
       answer 0%nat = Fails m1 → answer 1%nat = Fails m2 → answer 2%nat = Fails m3 →
       fetchJson rt url w
       = (Throw (exhausted_message url m3),
          after w 3 [Fetch url; retry_warning 1 m1; Sleep (RETRY_BACKOFF_MS * 1);
                     Fetch url; retry_warning 2 m2; Sleep (RETRY_BACKOFF_MS * 2);
                     Fetch url; Exhausted url (exhausted_message url m3)])).
Proof.
  intros answer.
  destruct (fetchJson_attempts rt url w) as (H1 & H2 & H3 & H4).
  cbn beta in H1, H2, H3, H4.
  change (settle rt (net rt (requests w + 0))) with (answer 0%nat) in H1, H2, H3, H4.
  change (settle rt (net rt (requests w + 1))) with (answer 1%nat) in H2, H3, H4.
  change (settle rt (net rt (requests w + 2))) with (answer 2%nat) in H3, H4.
  assert (requests w < requests (fetchJson rt url w).2 ≤ requests w + 3)%nat as Hbound.
  { destruct (answer 0%nat) as [d0 | m1] eqn:E0.
    { rewrite (H1 d0 eq_refl). simpl. lia. }
    destruct (answer 1%nat) as [d1 | m2] eqn:E1.
    { rewrite (H2 m1 d1 eq_refl eq_refl). simpl. lia. }
    destruct (answer 2%nat) as [d2 | m3] eqn:E2.
    { rewrite (H3 m1 m2 d2 eq_refl eq_refl eq_refl). simpl. lia. }
    rewrite (H4 m1 m2 m3 eq_refl eq_refl eq_refl). simpl. lia. }
  split; [done |]. split.
  { intros r Hok. simpl. by rewrite Hok. }
  split.
  { intros r data e Hok Hc He Ht. simpl. by rewrite Hok, Hc, He, Ht. }
  split.
  { intros r data Hok Hc He. simpl. rewrite Hok, Hc.
    destruct (error data) as [e |]; [by rewrite He | done]. }
  split; [exact Hbound |]. by split_and!.
Qed.

Lemma fetch_retry_contract_witness :
  let rt := sample_runtime (λ n, match n with
                                 | O => NetworkError "socket hang up"
                                 | _ => ok_response empty_body
                                 end) in
  fetchJson rt "u" initial_world
  = (Ok (Some empty_body),
     after initial_world 2
           [Fetch "u"; retry_warning 1 "socket hang up"; Sleep (RETRY_BACKOFF_MS * 1);
            Fetch "u"; Returned "u"]).
Proof.
  intros rt.
  destruct (fetch_retry_contract rt "u" initial_world) as (_ & _ & _ & _ & _ & _ & H & _).
  apply H; reflexivity.
Defined.

(** C8, as stated, fails: a body that contains an explicit [error] member,
    here the empty string, is returned by the first attempt and not
    retried. *)
Lemma explicit_error_member_not_retried :
  let data :=
    {| error := Some (JStr EmptyString); rosters_franchise := Missing;
       auctionResults_auction := Missing; transactions_transaction := Missing;
       players_player := Missing |} in
  let rt := sample_runtime (λ _, ok_response data) in
  is_Some (error data)
  ∧ fetchJson rt "u" initial_world
    = (Ok (Some data), after initial_world 1 [Fetch "u"; Returned "u"]).
Proof. split; [by eexists | reflexivity]. Qed.

(** ** The orchestrator *)

Lemma quiet_app (evs evs' : list event) : quiet evs → quiet evs' → quiet (evs ++ evs').
Proof. unfold quiet. rewrite Forall_app. auto. Qed.

Lemma returned_urls_app (evs evs' : list event) :
  returned_urls (evs ++ evs') = (returned_urls evs ++ returned_urls evs')%list.
Proof. apply omap_app. Qed.

Lemma runs_ret {A} (a : A) (Q : A → Prop) : Q a → runs (mret a) [] Q.
Proof.
  intros HQ w. unfold mret, M_ret. split; [done |].
  exists []. split_and!; [by rewrite app_nil_r | constructor | done].
Qed.

Lemma runs_bind {A B} (m : M A) (k : A → M B) (u1 u2 : list string)
    (Q1 : A → Prop) (Q2 : B → Prop) :
  runs m u1 Q1 → (∀ a, Q1 a → runs (k a) u2 Q2) → runs (m ≫= k) (u1 ++ u2) Q2.
Proof.
  intros Hm Hk w. unfold mbind, M_bind. specialize (Hm w).
  destruct (m w) as [[a | e] w1].
  - destruct Hm as (Ha & evs1 & Hlog1 & Hq1 & Hu1).
    specialize (Hk a Ha w1). destruct (k a w1) as [[b | e] w2].
    + destruct Hk as (Hb & evs2 & Hlog2 & Hq2 & Hu2). split; [done |].
      exists (evs1 ++ evs2)%list. rewrite Hlog2, Hlog1, <-app_assoc.
      split_and!; [done | by apply quiet_app |].
      by rewrite returned_urls_app, Hu1, Hu2.
    + destruct Hk as (evs2 & url & Hlog2 & Hq2 & Hu2 & Hm2).
      exists (evs1 ++ evs2)%list, url. rewrite Hlog2, Hlog1, <-!app_assoc.
      split_and!; [done | by apply quiet_app | | done].
      rewrite returned_urls_app, Hu1, <-app_assoc. by apply prefix_app.
  - destruct Hm as (evs1 & url & Hlog1 & Hq1 & Hu1 & Hm1).
    exists evs1, url. split_and!; [done | done | | done].
    by apply prefix_app_r.
Qed.

Lemma runs_urls {A} (m : M A) (u u' : list string) (Q : A → Prop) :
  runs m u Q → u = u' → runs m u' Q.
Proof. by intros Hm <-. Qed.

Lemma runs_emit (e : event) :
  quiet_event e → returned_urls [e] = [] → runs (emit e) [] (λ _, True).
Proof.
  intros Hq Hu w. unfold emit. split; [done |].
  exists [e]. split_and!; [done | by repeat constructor | done].
Qed.

Lemma runs_console_log (text : string) : runs (console_log text) [] (λ _, True).
Proof. by apply runs_emit. Qed.

Lemma runs_delay (ms : N) : runs (delay ms) [] (λ _, True).
Proof. by apply runs_emit. Qed.

Lemma runs_lift_Ok {A} (a : A) (Q : A → Prop) : Q a → runs (lift (Ok a)) [] Q.
Proof. apply runs_ret. Qed.

(** The loop of [fetchJson] logs only requests, warnings and waits. *)
Lemma fetchJson_loop_quiet (rt : runtime) (url : string) (attempts : list N) (w : world) :
  ∃ evs,
    log (fetchJson_loop rt url attempts w).2 = (log w ++ evs)%list
    ∧ quiet evs ∧ returned_urls evs = []
    ∧ ∀ e, (fetchJson_loop rt url attempts w).1 = Throw e →
           ∃ message, e = exhausted_message url message.
Proof.
  revert w. induction attempts as [| attempt rest IH]; intros w.
  - exists []. simpl. rewrite app_nil_r. split_and!; try done. constructor.
  - rewrite fetchJson_loop_cons.
    destruct (settle rt (net rt (requests w))) as [data | message].
    + exists [Fetch url]. split_and!; try done. by repeat constructor.
    + case_decide.
      * exists [Fetch url]. split_and!; try done; [by repeat constructor |].
        intros e [= <-]. by eexists.
      * destruct (IH (after w 1 [Fetch url; retry_warning attempt message;
                                 Sleep (RETRY_BACKOFF_MS * attempt)]))
          as (evs & Hlog & Hq & Hu & He).
        eexists. rewrite Hlog. cbn [after log]. rewrite <-app_assoc.
        split_and!; [done | | | done].
        -- apply quiet_app; [by repeat constructor | done].
        -- by rewrite returned_urls_app, Hu.
Qed.

Lemma runs_fetchJson (rt : runtime) (url : string) :
  runs (fetchJson rt url) [url] (λ _, True).
Proof.
  intros w. unfold fetchJson.
  destruct (fetchJson_loop_quiet rt url attempt_numbers w) as (evs & Hlog & Hq & Hu & He).
  destruct (fetchJson_loop rt url attempt_numbers w) as [[data | e] w1]; simpl in *.
  - split; [done |]. exists (evs ++ [Returned url])%list. rewrite Hlog, <-app_assoc.
    split_and!; [done | apply quiet_app; [done | by repeat constructor] |].
    by rewrite returned_urls_app, Hu.
  - exists evs, url. rewrite Hlog, <-app_assoc, Hu. split_and!; try done.
    by apply He.
Qed.

Lemma runs_fetchRosters (rt : runtime) (year week : N) :
  runs (fetchRosters rt year week)
       [buildUrl year [("TYPE", "rosters"); ("W", pretty week)]] (λ _, True).
Proof.
  unfold fetchRosters.
  eapply runs_urls.
  - eapply runs_bind; [apply runs_console_log |]. intros _ _.
    eapply runs_bind; [apply runs_fetchJson |]. intros data _.
    by apply runs_ret.
  - reflexivity.
Qed.

Lemma runs_fetchAuctionResults (rt : runtime) (year : N) :
  runs (fetchAuctionResults rt year)
       [buildUrl year [("TYPE", "auctionResults")]] (λ _, True).
Proof.
  unfold fetchAuctionResults.
  eapply runs_urls.
  - eapply runs_bind; [apply runs_console_log |]. intros _ _.
    eapply runs_bind; [apply runs_fetchJson |]. intros data _.
    by apply runs_ret.
  - reflexivity.
Qed.

Lemma runs_fetchBbidTransactions (rt : runtime) (year : N) :
  runs (fetchBbidTransactions rt year)
       [buildUrl year [("TYPE", "transactions"); ("TRANS_TYPE", "BBID_WAIVER");
                       ("COUNT", "500")]] (λ _, True).
Proof.
  unfold fetchBbidTransactions.
  eapply runs_urls.
  - eapply runs_bind; [apply runs_console_log |]. intros _ _.
    eapply runs_bind; [apply runs_fetchJson |]. intros data _.
    by apply runs_ret.
  - reflexivity.
Qed.

Lemma runs_fetchPlayerMetadata (rt : runtime) (year : N) :
  runs (fetchPlayerMetadata rt year)
       [buildUrl year [("TYPE", "players"); ("DETAILS", "1")]] tracked_positions.
Proof.
  unfold fetchPlayerMetadata.
  eapply runs_urls.
  - eapply runs_bind; [apply runs_console_log |]. intros _ _.
    eapply runs_bind; [apply runs_fetchJson |]. intros data _.
    apply runs_ret. apply player_metadata_of_tracked.
  - reflexivity.
Qed.

Lemma runs_mapM_console_log {A} (f : A → string) (l : list A) :
  runs (mapM (λ x, console_log (f x)) l) [] (λ _, True).
Proof.
  induction l as [| x l IH]; simpl; [by apply runs_ret |].
  eapply runs_urls.
  - eapply runs_bind; [apply runs_console_log |]. intros y _.
    eapply runs_bind; [apply IH |]. intros ys _. by apply runs_ret.
  - reflexivity.
Qed.

(** A season makes its five requests in order; nothing in it catches, and
    nothing but a request throws. *)
Lemma runs_collect_year (rt : runtime) (year : N) (allData : report) :
  runs (collect_year rt year allData) (season_urls year) (λ _, True).
Proof.
  unfold collect_year.
  eapply runs_urls.
  - eapply runs_bind; [apply runs_console_log |]. intros _ _.
    eapply runs_bind; [apply runs_console_log |]. intros _ _.
    eapply runs_bind; [apply runs_fetchRosters |]. intros rostersW1 _.
    eapply runs_bind; [apply runs_delay |]. intros _ _.
    eapply runs_bind; [apply runs_fetchRosters |]. intros rostersW14 _.
    eapply runs_bind; [apply runs_delay |]. intros _ _.
    eapply runs_bind; [apply runs_fetchAuctionResults |]. intros auctionSalaries _.
    eapply runs_bind; [apply runs_delay |]. intros _ _.
    eapply runs_bind; [apply runs_fetchBbidTransactions |]. intros bbidSalaries _.
    eapply runs_bind; [apply runs_delay |]. intros _ _.
    eapply runs_bind; [apply runs_fetchPlayerMetadata |]. intros playerMap Htracked.
    eapply runs_bind; [apply runs_delay |]. intros _ _.
    cbn zeta.
    destruct (rankByPosition_total
                (merge_season rostersW1 rostersW14 auctionSalaries bbidSalaries)
                playerMap (tracked_positions_plain _ Htracked)) as [ranked ->].
    eapply runs_bind; [by apply (runs_lift_Ok ranked (λ _, True)) |]. intros ranked' _.
    eapply runs_bind; [apply runs_console_log |]. intros _ _.
    eapply runs_bind; [apply runs_mapM_console_log |]. intros _ _.
    by apply runs_ret.
  - reflexivity.
Qed.

Lemma runs_collect_years (rt : runtime) (years : list N) (allData : report) :
  runs (collect_years rt years allData) (flat_map season_urls years) (λ _, True).
Proof.
  revert allData. induction years as [| year rest IH]; intros allData;
    cbn [collect_years flat_map].
  - by apply runs_ret.
  - eapply runs_bind; [apply runs_collect_year |]. intros allData' _. apply IH.
Qed.

Lemma runs_collectAllData (rt : runtime) :
  runs (collectAllData rt) all_urls (λ _, True).
Proof. apply runs_collect_years. Qed.

Example all_urls_length : length all_urls = 25%nat.
Proof. reflexivity. Qed.

(** ** Main *)

Lemma quiet_elem_of (evs : list event) (e : event) : quiet evs → e ∈ evs → quiet_event e.
Proof. unfold quiet. rewrite Forall_forall. auto. Qed.

(** The [try] block of [main] either writes the workbook after all the
    requests returned, or stops at the request that ran out of attempts. *)
Lemma export_shape (rt : runtime) (w : world) :
  match export rt w with
  | (Ok _, w') =>
      ∃ evs f wb text text',
        log w' = (log w ++ evs ++ [WriteFile f wb; ConsoleLog text; ConsoleLog text'])%list
        ∧ quiet evs ∧ returned_urls evs = all_urls
  | (Throw e, w') =>
      ∃ evs url,
        log w' = (log w ++ evs ++ [Exhausted url e])%list
        ∧ quiet evs
        ∧ (returned_urls evs ++ [url])%list `prefix_of` all_urls
        ∧ ∃ message, e = exhausted_message url message
  end.
Proof.
  unfold export, mbind, M_bind. pose proof (runs_collectAllData rt w) as H.
  destruct (collectAllData rt w) as [[allData | e] w1]; [| done].
  destruct H as (_ & evs & Hlog & Hq & Hu).
  unfold XLSX_writeFile, console_log, emit, record. simpl.
  eexists evs, _, _, _, _. rewrite Hlog, <-!app_assoc. by split_and!.
Qed.

Lemma main_shape (rt : runtime) :
  let code := (main rt initial_world).1 in
  let events := log (main rt initial_world).2 in
  (∃ before f wb text text',
     code = 0%N
     ∧ events = (before ++ [WriteFile f wb; ConsoleLog text; ConsoleLog text'])%list
     ∧ quiet before ∧ returned_urls before = all_urls)
  ∨ (∃ before url e,
       code = 1%N
       ∧ events = (before ++ [Exhausted url e;
                              ConsoleError [String "010" "Fatal error:"; e]; Exit 1])%list
       ∧ quiet before
       ∧ (returned_urls before ++ [url])%list `prefix_of` all_urls
       ∧ ∃ message, e = exhausted_message url message).
Proof.
  intros code events. subst code events. unfold main.
  set (w := (_ initial_world).2).
  assert (∃ banner, log w = banner ∧ quiet banner ∧ returned_urls banner = [])
    as (banner & Hw & Hqb & Hub).
  { eexists. split; [reflexivity |]. split; [by repeat constructor | done]. }
  pose proof (export_shape rt w) as H.
  destruct (export rt w) as [[[] | e] w1].
  - left. destruct H as (evs & f & wb & text & text' & Hlog & Hq & Hu).
    exists (banner ++ evs)%list, f, wb, text, text'. simpl.
    rewrite Hlog, Hw, <-app_assoc.
    split_and!; [done | done | by apply quiet_app |].
    by rewrite returned_urls_app, Hub.
  - right. destruct H as (evs & url & Hlog & Hq & Hu & Hm).
    exists (banner ++ evs)%list, url, e. simpl.
    rewrite Hlog, Hw, <-!app_assoc.
    split_and!; [done | done | by apply quiet_app | | done].
    by rewrite returned_urls_app, Hub.
Qed.

(** C9. When a request runs out of attempts, the run stops there: the
    error that [fetchJson] threw reaches the top level as it was thrown, is
    reported, and the process exits with status 1; nothing is requested
    after the failed request (no retry above the fetch client, no later
    season), and no workbook is written.  A run that writes the workbook
    exits with status 0, had no failed request, and all twenty-five
    requests of the five seasons returned.  Every run is of one of the two
    kinds. *)
Theorem fatal_fetch_failure_aborts (rt : runtime) :
  let code := (main rt initial_world).1 in
  let events := log (main rt initial_world).2 in
  (∀ url e, Exhausted url e ∈ events →
     code = 1%N
     ∧ (∀ f wb, WriteFile f wb ∉ events)
     ∧ (∃ message, e = exhausted_message url message)
     ∧ ∃ before,
         events = (before ++ [Exhausted url e;
                              ConsoleError [String "010" "Fatal error:"; e]; Exit 1])%list
         ∧ quiet before
         ∧ (returned_urls before ++ [url])%list `prefix_of` all_urls)
  ∧ (∀ f wb, WriteFile f wb ∈ events →
       code = 0%N
       ∧ (∀ url e, Exhausted url e ∉ events)
       ∧ (∀ c, Exit c ∉ events)
       ∧ returned_urls events = all_urls)
  ∧ ((∃ url e, Exhausted url e ∈ events) ∨ (∃ f wb, WriteFile f wb ∈ events)).
Proof.
  intros code events. pose proof (main_shape rt) as H. cbn zeta in H.
  fold code in H. fold events in H.
  destruct H as [(before & f0 & wb0 & text & text' & Hcode & Hev & Hq & Hu)
                | (before & url0 & e0 & Hcode & Hev & Hq & Hu & Hm)].
  - assert (∀ x, x ∈ events → quiet_event x ∨ x = WriteFile f0 wb0) as Hall.
    { intros x. rewrite Hev, elem_of_app, !elem_of_cons, elem_of_nil.
      intros [Hx | [-> | [-> | [-> | []]]]];
        [left; by eapply quiet_elem_of | by right | by left | by left]. }
    split_and!.
    + intros url e Hin. by destruct (Hall _ Hin).
    + intros f wb _. split_and!; [done | | |].
      * intros url e Hin. by destruct (Hall _ Hin).
      * intros c Hin. by destruct (Hall _ Hin).
      * rewrite Hev, returned_urls_app, Hu. apply app_nil_r.
    + right. exists f0, wb0. rewrite Hev, elem_of_app. right. apply list_elem_of_here.
  - assert (∀ x, x ∈ events →
                 quiet_event x ∨ x = Exhausted url0 e0 ∨ x = Exit 1) as Hall.
    { intros x. rewrite Hev, elem_of_app, !elem_of_cons, elem_of_nil.
      intros [Hx | [-> | [-> | [-> | []]]]];
        [left; by eapply quiet_elem_of | by right; left | by left | by right; right]. }
    split_and!.
    + intros url e Hin. destruct (Hall _ Hin) as [[] | [[= -> ->] | [=]]].
      split_and!; [done | | done | by exists before].
      intros f wb Hin'. by destruct (Hall _ Hin') as [[] | [[=] | [=]]].
    + intros f wb Hin. by destruct (Hall _ Hin) as [[] | [[=] | [=]]].
    + left. exists url0, e0. rewrite Hev, elem_of_app. right. apply list_elem_of_here.
Qed.

Lemma fatal_fetch_failure_aborts_witness :
  let rt := sample_runtime (λ n, if decide (3 ≤ n < 6)%nat
                                 then NetworkError "getaddrinfo ENOTFOUND"
                                 else ok_response empty_body) in
  (main rt initial_world).1 = 1%N
  ∧ ∀ f wb, WriteFile f wb ∉ log (main rt initial_world).2.
Proof.
  intros rt. destruct (fatal_fetch_failure_aborts rt) as (Habort & _ & _).
  set (url := buildUrl 2021 [("TYPE", "transactions"); ("TRANS_TYPE", "BBID_WAIVER");
                             ("COUNT", "500")]).
  destruct (Habort url (exhausted_message url "getaddrinfo ENOTFOUND"))
    as (Hcode & Hnowrite & _); [| done].
  apply (list_elem_of_lookup_2 _ 25). vm_compute. reflexivity.
Defined.

(** ** The end-to-end scenario of the specification *)

(** A player in the Week 1 roster at 1,000,000, missing from Week 14, in the
    auction at 1,500,000, missing from the waivers, with metadata that makes
    him a QB: reconciled at 1,500,000 and ranked in the QB bucket at that
    amount. *)
Example end_to_end_scenario :
  let merged := merge_season [("7", num 1000000)] [] [("7", num 1500000)] [] in
  let playerMap :=
    player_metadata_of
      [{| pl_id := Some "7"; pl_position := Some "QB"; pl_name := Some "Allen, Josh" |}] in
  rankByPosition merged playerMap
  = Ok [("QB", [{| name := "Josh Allen"; salary := num 1500000 |}]);
        ("RB", []); ("WR", []); ("TE", []); ("PK", []); ("Def", [])].
Proof. vm_compute. reflexivity. Qed.

(** A position that names an inherited property makes [push] fail; the
    metadata extractor never stores one. *)
Example inherited_position_throws :
  rankByPosition [("7", num 1)]
                 [("7", {| meta_name := "X"; position := "constructor" |})]
  = Throw "groups[meta.position].push is not a function".
Proof. reflexivity. Qed.
